(** * video-to-mp3: the job lifecycle of [server/index.js]

    A shallow embedding of the server's job store, of the callbacks that
    mutate it (upload route, [convertToMp3] and the handlers it registers
    on the ffmpeg command, the cleanup timer, the periodic sweep) and of
    the two read-only routes, followed by the properties of the job
    lifecycle.

    Node runs every callback to completion, one at a time; the embedding
    is therefore a transition system whose steps are whole callbacks. *)

From Stdlib Require Import ZArith QArith Qround Ascii.
From stdpp Require Import base gmap strings list pretty.

#[local] Set Warnings "-clear-no-such-hyp".

Local Open Scope string_scope.
Local Open Scope list_scope.
Local Open Scope Z_scope.

(** ** JavaScript values used by the server *)

(** [job.status] only ever holds one of four string literals. *)
Inductive Status := queued | processing | done | error.

#[global] Instance Status_eq_dec : EqDecision Status.
Proof. solve_decision. Defined.

(** [p.percent] as reported by fluent-ffmpeg: absent, not-a-number, or a
    finite number (every finite double is a rational). *)
Inductive JsNumber :=
| Undefined
| NaN
| Num (q : Q).

(** [x || 0] on such a value: [undefined], [NaN] and [0] are falsy. *)
Definition or_zero (x : JsNumber) : Q :=
  match x with
  | Num q => q
  | Undefined | NaN => 0%Q
  end.

(** [Math.round]: the nearest integer, ties towards plus infinity. *)
Definition Math_round (q : Q) : Z := Qfloor (q + (1 # 2))%Q.

(** An [Error] object, as thrown by or emitted from fluent-ffmpeg:
    [err.message] and [String(err)]. *)
Record JsError := mkJsError {
  message : string;
  asString : string
}.

(** [err.message || String(err)]: the empty string is falsy. *)
Definition message_or_string (err : JsError) : string :=
  if decide (message err = "") then asString err else message err.

(** Truthiness of a string ([job.inputPath && ...]). *)
Definition truthy (s : string) : bool := bool_decide (s ≠ "").

(** ** The job record *)

(** The field [error] of the source is [jobError] here, the name [error]
    being taken by the status literal. [cleanupTimer] holds the handle
    returned by [setTimeout]. *)
Record Job := mkJob {
  id : string;
  status : Status;
  progress : Z;
  inputPath : string;
  outputPath : string;
  createdAt : Z;
  finishedAt : option Z;
  expiresAt : option Z;
  cleanupTimer : option nat;
  jobError : option string
}.

Definition set_status (s : Status) (j : Job) : Job :=
  mkJob (id j) s (progress j) (inputPath j) (outputPath j) (createdAt j)
        (finishedAt j) (expiresAt j) (cleanupTimer j) (jobError j).

Definition set_progress (p : Z) (j : Job) : Job :=
  mkJob (id j) (status j) p (inputPath j) (outputPath j) (createdAt j)
        (finishedAt j) (expiresAt j) (cleanupTimer j) (jobError j).

Definition set_finishedAt (t : Z) (j : Job) : Job :=
  mkJob (id j) (status j) (progress j) (inputPath j) (outputPath j)
        (createdAt j) (Some t) (expiresAt j) (cleanupTimer j) (jobError j).

Definition set_error (m : string) (j : Job) : Job :=
  mkJob (id j) (status j) (progress j) (inputPath j) (outputPath j)
        (createdAt j) (finishedAt j) (expiresAt j) (cleanupTimer j) (Some m).

Definition set_expiry (t : Z) (h : nat) (j : Job) : Job :=
  mkJob (id j) (status j) (progress j) (inputPath j) (outputPath j)
        (createdAt j) (finishedAt j) (Some t) (Some h) (jobError j).

(** ** The [jobs] Map

    A JavaScript [Map] keeps its entries in insertion order and the sweep
    iterates over them in that order, so the store is an association list
    from job id to the address of the job object. *)

Definition Store := list (string * nat).

Fixpoint store_get (m : Store) (k : string) : option nat :=
  match m with
  | [] => None
  | (k', v) :: m' => if decide (k' = k) then Some v else store_get m' k
  end.

(** [jobs.set(k, v)]: an existing key keeps its place, a new one is
    appended. *)
Fixpoint store_set (m : Store) (k : string) (v : nat) : Store :=
  match m with
  | [] => [(k, v)]
  | (k', v') :: m' =>
      if decide (k' = k) then (k, v) :: m' else (k', v') :: store_set m' k v
  end.

(** [jobs.delete(k)]. *)
Fixpoint store_delete (m : Store) (k : string) : Store :=
  match m with
  | [] => []
  | (k', v') :: m' =>
      if decide (k' = k) then store_delete m' k else (k', v') :: store_delete m' k
  end.

(** ** The disk

    The set of paths that exist, and the record of the paths that were
    unlinked, oldest first. *)

Record Disk := mkDisk {
  files : gset string;
  unlinked : list string
}.

Inductive Outcome :=
| Returned
| Threw (e : string).

Definition existsSync (d : Disk) (p : string) : bool := bool_decide (p ∈ files d).

(** [fs.unlinkSync(p)]. It throws when the path does not exist, and when
    the operating system refuses the deletion; [denied] lists the paths
    it refuses during the running callback. *)
Definition unlinkSync (denied : list string) (p : string) (d : Disk) : Outcome * Disk :=
  if existsSync d p then
    if bool_decide (p ∈ denied) then (Threw "EPERM", d)
    else (Returned, mkDisk (files d ∖ {[p]}) (unlinked d ++ [p]))
  else (Threw "ENOENT", d).

(** [if (p && fs.existsSync(p)) fs.unlinkSync(p);] *)
Definition removeIfPresent (denied : list string) (p : string) (d : Disk) : Outcome * Disk :=
  if truthy p && existsSync d p then unlinkSync denied p d else (Returned, d).

(** The body of the [try] block shared by the cleanup timer and the
    sweep: the first throw abandons the rest of the block. *)
Definition removeFiles (denied : list string) (j : Job) (d : Disk) : Outcome * Disk :=
  match removeIfPresent denied (inputPath j) d with
  | (Returned, d1) => removeIfPresent denied (outputPath j) d1
  | (Threw e, d1) => (Threw e, d1)
  end.

(** ** HTTP responses *)

Inductive Body :=
| ErrorJson (errorText : string)
| UploadJson (jobId statusUrl downloadUrl : string)
| StatusJson (jid : string) (st : Status) (prog : Z)
             (downloadUrl : option string) (errorField : option string)
| Download (path filename : string).

Record Response := mkResponse {
  code : Z;
  body : Body
}.

Definition safeSendJSON (c : Z) (obj : Body) : Response := mkResponse c obj.

(** ** The state of the process

    [heap] holds every job object ever allocated, addressed by position:
    a callback that captured [job] in its closure keeps writing to that
    object after the store has dropped it. [nextTicks] is the queue of
    pending [process.nextTick(() => convertToMp3(jobId))] calls,
    [encoders] the closures [(jobId, job)] of the handlers registered on
    ffmpeg commands, [timers] the pending [setTimeout] callbacks with
    their closures. *)

Record Timer := mkTimer {
  handle : nat;
  timerJobId : string;
  timerJob : nat
}.

#[global] Instance Timer_eq_dec : EqDecision Timer.
Proof. solve_decision. Defined.

Record World := mkWorld {
  heap : list Job;
  jobs : Store;
  nextTicks : list string;
  encoders : list (string * nat);
  timers : list Timer;
  timerSeq : nat;
  disk : Disk;
  console : list string
}.

Definition initial : World := mkWorld [] [] [] [] [] 0%nat (mkDisk ∅ []) [].

Definition with_heap (h : list Job) (w : World) : World :=
  mkWorld h (jobs w) (nextTicks w) (encoders w) (timers w) (timerSeq w) (disk w) (console w).

Definition with_jobs (m : Store) (w : World) : World :=
  mkWorld (heap w) m (nextTicks w) (encoders w) (timers w) (timerSeq w) (disk w) (console w).

Definition with_nextTicks (q : list string) (w : World) : World :=
  mkWorld (heap w) (jobs w) q (encoders w) (timers w) (timerSeq w) (disk w) (console w).

Definition with_encoders (e : list (string * nat)) (w : World) : World :=
  mkWorld (heap w) (jobs w) (nextTicks w) e (timers w) (timerSeq w) (disk w) (console w).

Definition with_timers (t : list Timer) (n : nat) (w : World) : World :=
  mkWorld (heap w) (jobs w) (nextTicks w) (encoders w) t n (disk w) (console w).

Definition with_disk (d : Disk) (w : World) : World :=
  mkWorld (heap w) (jobs w) (nextTicks w) (encoders w) (timers w) (timerSeq w) d (console w).

Definition log (line : string) (w : World) : World :=
  mkWorld (heap w) (jobs w) (nextTicks w) (encoders w) (timers w) (timerSeq w) (disk w)
          (console w ++ [line]).

(** A write through a captured [job] reference. *)
Definition write_job (r : nat) (f : Job → Job) (w : World) : World :=
  with_heap (alter f r (heap w)) w.

(** [jobs.get(id)], dereferenced. *)
Definition jobs_get (w : World) (k : string) : option Job :=
  r ← store_get (jobs w) k; heap w !! r.

(** [job.expiresAt && job.expiresAt <= now]: [undefined] and [0] are
    falsy. *)
Definition expired (now : Z) (j : Job) : bool :=
  match expiresAt j with
  | Some t => negb (t =? 0) && (t <=? now)
  | None => false
  end.

(** The [try { ... } catch (e) { console.error(label, e) }] around the
    two deletions, followed by [jobs.delete(jobId)]. The timer callback
    and the sweep carry the same statements and differ in the label. *)
Definition evict (label jobId : string) (r : nat) (denied : list string) (w : World) : World :=
  let '(o, d) := match heap w !! r with
                 | Some job => removeFiles denied job (disk w)
                 | None => (Returned, disk w)
                 end in
  let w1 := with_disk d w in
  let w2 := match o with
            | Threw e => log (label +:+ " " +:+ e) w1
            | Returned => w1
            end in
  with_jobs (store_delete (jobs w2) jobId) w2.

(** The callback passed to [setTimeout] in [scheduleCleanup]. *)
Definition cleanupCallback (t : Timer) (denied : list string) (w : World) : World :=
  evict "cleanup error" (timerJobId t) (timerJob t) denied w.

(** The body of the [setInterval] callback: [for (const [id, job] of
    jobs.entries())]. Deleting the entry being visited does not disturb
    the iteration over the later ones. *)
Fixpoint sweep_loop (entries : Store) (now : Z) (denied : list string) (w : World) : World :=
  match entries with
  | [] => w
  | (k, r) :: rest =>
      let w' := match heap w !! r with
                | Some job => if expired now job
                              then evict "sweep cleanup error" k r denied w
                              else w
                | None => w
                end in
      sweep_loop rest now denied w'
  end.

Definition sweep (now : Z) (denied : list string) (w : World) : World :=
  sweep_loop (jobs w) now denied w.

(** [path.join(dir, name)] for a normalised [dir] and a [name] without
    separators or dot segments, which is what [uuidv4() + '.mp3'] is. *)
Definition path_join (dir name : string) : string := dir +:+ "/" +:+ name.

Section Server.

(** [process.env.TTL_SEC], already read as an integer when set, and the
    directory [OUT_DIR]. *)
Variable TTL_SEC : option Z.
Variable OUT_DIR : string.

Definition TTL_MS : Z := default 3600 TTL_SEC * 1000.

(** [scheduleCleanup(jobId, delayMs)]; every call in the source leaves
    [delayMs] at its default [TTL_MS]. [now] is the reading of
    [Date.now()]. The timer's closure holds [jobId] and the [job] that
    [jobs.get(jobId)] returned. *)
Definition scheduleCleanup (jobId : string) (delayMs now : Z) (w : World) : World :=
  match store_get (jobs w) jobId with
  | None => w
  | Some r =>
      let h := timerSeq w in
      with_timers (timers w ++ [mkTimer h jobId r]) (S h)
                  (write_job r (set_expiry (now + delayMs) h) w)
  end.

(** [path.join(OUT_DIR, `${jobId}.mp3`)] *)
Definition output_path (jobId : string) : string := path_join OUT_DIR (jobId +:+ ".mp3").

(** [app.post('/api/upload', ...)]: [file] is [req.file.path] when multer
    stored a file, [uuid] the result of [uuidv4()], [now] of
    [Date.now()]. *)
Definition uploadRoute (file : option string) (uuid : string) (now : Z) (w : World)
  : World * Response :=
  match file with
  | None => (w, safeSendJSON 400 (ErrorJson "No file uploaded"))
  | Some p =>
      let job := mkJob uuid queued 0 p (output_path uuid) now None None None None in
      let r := length (heap w) in
      let w1 := with_jobs (store_set (jobs w) uuid r) (with_heap (heap w ++ [job]) w) in
      let w2 := with_nextTicks (nextTicks w1 ++ [uuid]) w1 in
      (w2, safeSendJSON 202 (UploadJson uuid ("/api/status/" +:+ uuid) ("/api/download/" +:+ uuid)))
  end.

(** [convertToMp3(jobId)]. [thrown] tells whether building and starting
    the ffmpeg command throws, and what; [now] is the clock read by
    [scheduleCleanup] in the [catch] block. When nothing is thrown the
    three handlers stay registered with [jobId] and [job] in their
    closure. *)
Definition convertToMp3 (jobId : string) (thrown : option JsError) (now : Z) (w : World)
  : World :=
  match store_get (jobs w) jobId with
  | None => w
  | Some r =>
      let w1 := write_job r (set_status processing) w in
      match thrown with
      | None => with_encoders (encoders w1 ++ [(jobId, r)]) w1
      | Some err =>
          scheduleCleanup jobId TTL_MS now
            (write_job r (λ j, set_error (message err) (set_status error j)) w1)
      end
  end.

(** [.on('progress', p => ...)] *)
Definition onProgress (run : string * nat) (percent : JsNumber) (w : World) : World :=
  write_job run.2 (set_progress (Math_round (or_zero percent))) w.

(** [.on('end', () => ...)]: [tFinished] and [tArmed] are the two
    readings of [Date.now()], in the handler and in [scheduleCleanup]. *)
Definition onEnd (run : string * nat) (tFinished tArmed : Z) (w : World) : World :=
  log ("Job " +:+ run.1 +:+ " completed")
    (scheduleCleanup run.1 TTL_MS tArmed
       (write_job run.2 (λ j, set_finishedAt tFinished (set_progress 100 (set_status done j))) w)).

(** [.on('error', (err, stdout, stderr) => ...)] *)
Definition onError (run : string * nat) (err : JsError) (tFinished tArmed : Z) (w : World)
  : World :=
  log ("ffmpeg error " +:+ asString err)
    (scheduleCleanup run.1 TTL_MS tArmed
       (write_job run.2
          (λ j, set_finishedAt tFinished (set_error (message_or_string err) (set_status error j)))
          w)).

(** [app.get('/api/status/:id', ...)]; [job.progress || 0] is
    [job.progress] for a number, and a field that is [undefined] is left
    out of the JSON. *)
Definition statusRoute (w : World) (k : string) : Response :=
  match jobs_get w k with
  | None => safeSendJSON 404 (ErrorJson "Job not found")
  | Some job =>
      safeSendJSON 200
        (StatusJson (id job) (status job)
           (if decide (progress job = 0) then 0 else progress job)
           (if decide (status job = done) then Some ("/api/download/" +:+ id job) else None)
           (jobError job))
  end.

(** [app.get('/api/download/:id', ...)] *)
Definition downloadRoute (w : World) (k : string) : Response :=
  match jobs_get w k with
  | None => safeSendJSON 404 (ErrorJson "Job not found")
  | Some job =>
      if bool_decide (status job ≠ done) || negb (existsSync (disk w) (outputPath job))
      then safeSendJSON 400 (ErrorJson "Output not ready")
      else mkResponse 200 (Download (outputPath job) ("audio-" +:+ id job +:+ ".mp3"))
  end.

(** ** Callbacks as events *)

Inductive Event :=
| Upload (file : option string) (uuid : string) (now : Z)
| NextTick (thrown : option JsError) (now : Z)
| EncProgress (run : string * nat) (percent : JsNumber)
| EncEnd (run : string * nat) (tFinished tArmed : Z)
| EncError (run : string * nat) (err : JsError) (tFinished tArmed : Z)
| TimerFire (h : nat) (denied : list string)
| Sweep (now : Z) (denied : list string)
| DiskWrite (p : string).

(** One turn of the event loop. A callback that is not pending (no such
    queued tick, registered handler or armed timer) cannot run. A timer
    fires once. [DiskWrite] is another party creating a file: multer
    storing an upload, ffmpeg writing its output. *)
Definition step (w : World) (e : Event) : World :=
  match e with
  | Upload file uuid now => (uploadRoute file uuid now w).1
  | NextTick thrown now =>
      match nextTicks w with
      | [] => w
      | jobId :: q => convertToMp3 jobId thrown now (with_nextTicks q w)
      end
  | EncProgress run percent =>
      if bool_decide (run ∈ encoders w) then onProgress run percent w else w
  | EncEnd run t1 t2 =>
      if bool_decide (run ∈ encoders w) then onEnd run t1 t2 w else w
  | EncError run err t1 t2 =>
      if bool_decide (run ∈ encoders w) then onError run err t1 t2 w else w
  | TimerFire h denied =>
      match list_find (λ t, handle t = h) (timers w) with
      | Some (_, t) =>
          cleanupCallback t denied
            (with_timers (filter (λ t', handle t' ≠ h) (timers w)) (timerSeq w) w)
      | None => w
      end
  | Sweep now denied => sweep now denied w
  | DiskWrite p => with_disk (mkDisk (files (disk w) ∪ {[p]}) (unlinked (disk w))) w
  end.

Definition exec (w : World) (tr : list Event) : World := foldl step w tr.

(** ** Vocabulary of the properties *)

(** The id a successful upload registers. *)
Definition uploaded (e : Event) : option string :=
  match e with
  | Upload (Some _) uuid _ => Some uuid
  | _ => None
  end.

Definition uploads (tr : list Event) : list string := omap uploaded tr.

(** [d'] is [d] after some unlinks: the paths unlinked in between were
    all on [d], are gone from [d'], and none was unlinked twice. *)
Definition shrinks (d d' : Disk) : Prop :=
  ∃ l, unlinked d' = unlinked d ++ l
       ∧ NoDup l
       ∧ files d' = files d ∖ list_to_set l
       ∧ ∀ p, p ∈ l → p ∈ files d.

(** The lifecycle order: [queued], then [processing], then one of the two
    terminal states. [forward s s'] is what one callback may do to the
    status of a job: leave it, or move it one state on. From [queued] to
    [error] is [convertToMp3] setting [processing] and then, in its
    [catch] block, [error], within the one callback. *)
Definition is_terminal (s : Status) : bool :=
  match s with
  | done | error => true
  | queued | processing => false
  end.

Definition forward (s s' : Status) : bool :=
  match s, s' with
  | queued, (queued | processing | error) => true
  | processing, (processing | done | error) => true
  | done, done => true
  | error, error => true
  | _, _ => false
  end.

(** *** What the server takes from its libraries

    [uuidv4()] does not return the same id twice, and an ffmpeg command
    emits ['end'] or ['error'] once and nothing after it. [env_ok tr]
    checks a sequence of events against both: [used] collects the ids
    handed out so far, [ended] the commands that have emitted their
    final event. *)
Definition enc_run (e : Event) : option (string * nat) :=
  match e with
  | EncProgress run _ | EncEnd run _ _ | EncError run _ _ _ => Some run
  | _ => None
  end.

Definition enc_final (e : Event) : option (string * nat) :=
  match e with
  | EncEnd run _ _ | EncError run _ _ _ => Some run
  | _ => None
  end.

Definition allowed (used : list string) (ended : list (string * nat)) (e : Event) : bool :=
  match uploaded e with
  | Some uuid => bool_decide (uuid ∉ used)
  | None => true
  end
  && match enc_run e with
     | Some run => bool_decide (run ∉ ended)
     | None => true
     end.

Definition next_used (used : list string) (e : Event) : list string :=
  match uploaded e with
  | Some uuid => uuid :: used
  | None => used
  end.

Definition next_ended (ended : list (string * nat)) (e : Event) : list (string * nat) :=
  match enc_final e with
  | Some run => run :: ended
  | None => ended
  end.

Fixpoint env_ok_from (used : list string) (ended : list (string * nat)) (tr : list Event)
  : bool :=
  match tr with
  | [] => true
  | e :: tr' => allowed used ended e && env_ok_from (next_used used e) (next_ended ended e) tr'
  end.

Definition env_ok (tr : list Event) : bool := env_ok_from [] [] tr.

(** *** Invariants

    [store_wf] holds after every sequence of events: each entry of the
    store leads to a live object that carries the entry's key as its id
    and the output path derived from it. *)
Definition store_wf (w : World) : Prop :=
  ∀ k r, (k, r) ∈ jobs w →
    ∃ j, heap w !! r = Some j ∧ id j = k ∧ outputPath j = output_path k.

(** [Inv used ended w] holds after every sequence of events accepted by
    [env_ok]. *)
Record Inv (used : list string) (ended : list (string * nat)) (w : World) : Prop := mkInv {
  inv_store : store_wf w;
  inv_used : ∀ r j, heap w !! r = Some j → id j ∈ used;
  inv_ids : ∀ r r' j j',
    heap w !! r = Some j → heap w !! r' = Some j' → id j = id j' → r = r';
  inv_ticks : ∀ k r j,
    k ∈ nextTicks w → store_get (jobs w) k = Some r → heap w !! r = Some j →
    status j = queued;
  inv_ticks_nodup : NoDup (nextTicks w);
  inv_ticks_used : ∀ k, k ∈ nextTicks w → k ∈ used;
  inv_runs : ∀ run, run ∈ encoders w →
    ∃ j, heap w !! run.2 = Some j ∧ id j = run.1 ∧ status j ≠ queued
         ∧ (run ∉ ended → status j = processing);
  inv_live : ∀ r j,
    heap w !! r = Some j → status j = processing → store_get (jobs w) (id j) = Some r;
  inv_timers : ∀ t, t ∈ timers w →
    ∃ j, heap w !! timerJob t = Some j ∧ id j = timerJobId t
         ∧ is_terminal (status j) = true;
  inv_expiry : ∀ r j,
    heap w !! r = Some j → is_terminal (status j) = false → expiresAt j = None;
  inv_error : ∀ r j,
    heap w !! r = Some j → (status j = error ↔ is_Some (jobError j))
}.

(** [keeps h h']: every object of [h] is still at its address in [h'],
    with the id and the paths it was created with. *)
Definition keeps (h h' : list Job) : Prop :=
  ∀ r j, h !! r = Some j →
    ∃ j', h' !! r = Some j' ∧ id j' = id j
          ∧ inputPath j' = inputPath j ∧ outputPath j' = outputPath j.

(** *** What one callback does to the state

    [updated h h' r j']: [h'] is [h] with the object at [r] replaced by
    [j']. *)
Definition updated (h h' : list Job) (r : nat) (j' : Job) : Prop :=
  ∀ r', h' !! r' = if decide (r' = r) then Some j' else h !! r'.

(** [quiet w w']: the two states have the same objects, store, queues,
    handlers and timers (disk and console may differ). *)
Definition quiet (w w' : World) : Prop :=
  heap w' = heap w ∧ jobs w' = jobs w ∧ nextTicks w' = nextTicks w
  ∧ encoders w' = encoders w ∧ timers w' = timers w ∧ timerSeq w' = timerSeq w.

(** The shapes a step of an accepted sequence can have, with what the
    callback found when it ran: an upload; a tick that finds no job; a
    tick that starts the conversion of a queued job; a job reaching a
    terminal state (from [processing] by a final event, or from [queued]
    by a conversion that throws at once) and getting its timer; a
    progress report on a [processing] job; a timer firing; a sweep. *)
Inductive Trans (w w' : World) : Prop :=
| T_quiet : quiet w w' → Trans w w'
| T_upload uuid file now :
    (∀ r j, heap w !! r = Some j → id j ≠ uuid) →
    uuid ∉ nextTicks w →
    heap w' = heap w ++ [mkJob uuid queued 0 file (output_path uuid) now None None None None] →
    jobs w' = store_set (jobs w) uuid (length (heap w)) →
    nextTicks w' = nextTicks w ++ [uuid] →
    encoders w' = encoders w → timers w' = timers w → timerSeq w' = timerSeq w →
    Trans w w'
| T_skip k :
    nextTicks w = k :: nextTicks w' →
    store_get (jobs w) k = None →
    heap w' = heap w → jobs w' = jobs w →
    encoders w' = encoders w → timers w' = timers w → timerSeq w' = timerSeq w →
    Trans w w'
| T_start k r j :
    nextTicks w = k :: nextTicks w' →
    store_get (jobs w) k = Some r →
    heap w !! r = Some j → status j = queued → id j = k →
    (∀ run, run ∈ encoders w → run.2 ≠ r) →
    updated (heap w) (heap w') r (set_status processing j) →
    encoders w' = encoders w ++ [(k, r)] →
    jobs w' = jobs w → timers w' = timers w → timerSeq w' = timerSeq w →
    Trans w w'
| T_finish r j j' :
    heap w !! r = Some j →
    store_get (jobs w) (id j) = Some r →
    (status j = processing ∧ nextTicks w' = nextTicks w)
    ∨ (status j = queued ∧ nextTicks w = id j :: nextTicks w') →
    updated (heap w) (heap w') r j' →
    id j' = id j →
    is_terminal (status j') = true →
    is_Some (expiresAt j') →
    cleanupTimer j' = Some (timerSeq w) →
    (status j' = done → progress j' = 100 ∧ is_Some (finishedAt j')) →
    timers w' = timers w ++ [mkTimer (timerSeq w) (id j) r] →
    timerSeq w' = S (timerSeq w) →
    jobs w' = jobs w → encoders w' = encoders w →
    Trans w w'
| T_progress r j p :
    heap w !! r = Some j → status j = processing →
    updated (heap w) (heap w') r (set_progress p j) →
    jobs w' = jobs w → nextTicks w' = nextTicks w →
    encoders w' = encoders w → timers w' = timers w → timerSeq w' = timerSeq w →
    Trans w w'
| T_fire t :
    t ∈ timers w →
    timers w' = filter (λ t', handle t' ≠ handle t) (timers w) →
    jobs w' = store_delete (jobs w) (timerJobId t) →
    heap w' = heap w → nextTicks w' = nextTicks w →
    encoders w' = encoders w → timerSeq w' = timerSeq w →
    Trans w w'
| T_sweep :
    (∀ k r, store_get (jobs w') k = Some r → store_get (jobs w) k = Some r) →
    (∀ k r j, store_get (jobs w) k = Some r → heap w !! r = Some j →
              is_terminal (status j) = false → store_get (jobs w') k = Some r) →
    heap w' = heap w → nextTicks w' = nextTicks w →
    encoders w' = encoders w → timers w' = timers w → timerSeq w' = timerSeq w →
    Trans w w'.

(** [Life w] holds, with [Inv], after every sequence of events accepted
    by [env_ok]: what is known of a job from its status, and of the
    queues from the jobs. *)
Record Life (w : World) : Prop := mkLife {
  life_queued : ∀ r j, heap w !! r = Some j → status j = queued →
    progress j = 0 ∧ finishedAt j = None
    ∧ store_get (jobs w) (id j) = Some r ∧ id j ∈ nextTicks w;
  life_ticks : ∀ k, k ∈ nextTicks w →
    ∃ r j, store_get (jobs w) k = Some r ∧ heap w !! r = Some j ∧ status j = queued;
  life_done : ∀ r j, heap w !! r = Some j → status j = done →
    progress j = 100 ∧ is_Some (finishedAt j);
  life_expiry : ∀ r j, heap w !! r = Some j → is_terminal (status j) = true →
    is_Some (expiresAt j) ∧ is_Some (cleanupTimer j);
  life_pending : ∀ r j,
    heap w !! r = Some j → is_terminal (status j) = true →
    store_get (jobs w) (id j) = Some r →
    ∃ t, t ∈ timers w ∧ timerJob t = r ∧ timerJobId t = id j
         ∧ cleanupTimer j = Some (handle t);
  life_runs : NoDup (encoders w).*2;
  life_timer_ids : NoDup (timerJobId <$> timers w);
  life_handles : NoDup (handle <$> timers w);
  life_handle_bound : ∀ t, t ∈ timers w → (handle t < timerSeq w)%nat
}.

(** ** The upload storage of [server/index.js]

    [storage.filename]: [Date.now() + '-' + Math.round(Math.random() *
    1e9)], then ['-' + file.originalname]. Both numbers are non-negative
    integers, written in decimal. *)
Definition upload_filename (now rnd : N) (originalname : string) : string :=
  (pretty now +:+ "-" +:+ pretty rnd) +:+ "-" +:+ originalname.

Fixpoint no_dash (s : string) : bool :=
  match s with
  | EmptyString => true
  | String a s' => negb (Ascii.eqb a "-"%char) && no_dash s'
  end.

(** ** The polling callback of [public/app.js]

    What the callback passed to [setInterval] does with the body it gets
    from [/api/status/<id>]. *)

Definition status_text (s : Status) : string :=
  match s with
  | queued => "queued"
  | processing => "processing"
  | done => "done"
  | error => "error"
  end.

(** The properties the callback reads off the parsed JSON, [None] for
    [undefined]. *)
Definition body_progress (b : Body) : option Z :=
  match b with
  | StatusJson _ _ p _ _ => Some p
  | _ => None
  end.

Definition body_status (b : Body) : option Status :=
  match b with
  | StatusJson _ s _ _ _ => Some s
  | _ => None
  end.

Definition body_error (b : Body) : option string :=
  match b with
  | StatusJson _ _ _ _ e => e
  | ErrorJson e => Some e
  | _ => None
  end.

Definition body_downloadUrl (b : Body) : option string :=
  match b with
  | StatusJson _ _ _ d _ => d
  | UploadJson _ _ d => Some d
  | _ => None
  end.

(** What a template or a [+] makes of a string that may be
    [undefined]. *)
Definition js_text (o : option string) : string := default "undefined" o.

Definition dquote : string := String (Ascii.ascii_of_nat 34) EmptyString.

(** The card of a job on the page: the width of the bar, the content of
    the info line (set through [textContent] or through [innerHTML]),
    and whether the interval is still running. *)
Inductive Content :=
| TextContent (s : string)
| InnerHTML (s : string).

Record PollView := mkPollView {
  barWidth : string;
  info : Content;
  polling : bool
}.

(** The view the submit handler sets up before the first poll. *)
Definition firstView : PollView := mkPollView "" (TextContent "Queued...") true.

(** [(s.progress || 0) + '%'], for an integer below 10^21 in size. *)
Definition bar_width (b : Body) : string :=
  pretty (default 0 (body_progress b)) +:+ "%".

(** [s.status + (s.error ? ' - ' + s.error : '')] *)
Definition info_text (b : Body) : string :=
  js_text (status_text <$> body_status b)
  +:+ match body_error b with
      | Some e => if truthy e then " - " +:+ e else ""
      | None => ""
      end.

(** A body that is not JSON makes [json()] reject, and the callback ends
    there. *)
Definition pollCallback (b : Body) (v : PollView) : PollView :=
  match b with
  | Download _ _ => v
  | _ =>
      match body_status b with
      | Some done =>
          mkPollView (bar_width b)
            (InnerHTML ("Completed — <a href=" +:+ dquote +:+ js_text (body_downloadUrl b)
                        +:+ dquote +:+ ">Download MP3</a>"))
            false
      | Some error => mkPollView (bar_width b) (TextContent (info_text b)) false
      | _ => mkPollView (bar_width b) (TextContent (info_text b)) (polling v)
      end
  end.

(** ** The store *)

Lemma store_get_set_eq (m : Store) k v : store_get (store_set m k v) k = Some v.
Proof.
  induction m as [|[k' v'] m IH]; simpl.
  - by rewrite decide_True.
  - destruct (decide (k' = k)) as [->|Hne]; simpl.
    + by rewrite decide_True.
    + by rewrite decide_False.
Qed.

Lemma store_get_set_ne (m : Store) k k' v :
  k ≠ k' → store_get (store_set m k v) k' = store_get m k'.
Proof.
  intros Hne. induction m as [|[k0 v0] m IH]; simpl.
  - by rewrite decide_False.
  - destruct (decide (k0 = k)) as [->|Hk]; simpl.
    + by rewrite !decide_False.
    + by rewrite IH.
Qed.

Lemma store_get_delete_eq (m : Store) k : store_get (store_delete m k) k = None.
Proof.
  induction m as [|[k' v'] m IH]; simpl; [done|].
  destruct (decide (k' = k)); simpl; [done|]. by rewrite decide_False.
Qed.

Lemma store_get_delete_ne (m : Store) k k' :
  k ≠ k' → store_get (store_delete m k) k' = store_get m k'.
Proof.
  intros Hne. induction m as [|[k0 v0] m IH]; simpl; [done|].
  destruct (decide (k0 = k)) as [->|Hk]; simpl.
  - by rewrite decide_False.
  - by rewrite IH.
Qed.

Lemma store_get_delete_Some (m : Store) k k' r :
  store_get (store_delete m k) k' = Some r → k ≠ k' ∧ store_get m k' = Some r.
Proof.
  intros H. destruct (decide (k = k')) as [->|Hne].
  - by rewrite store_get_delete_eq in H.
  - by rewrite store_get_delete_ne in H.
Qed.

Lemma store_get_delete_None (m : Store) k k' :
  store_get m k' = None → store_get (store_delete m k) k' = None.
Proof.
  intros H. destruct (decide (k = k')) as [->|Hne].
  - apply store_get_delete_eq.
  - by rewrite store_get_delete_ne.
Qed.

Lemma store_delete_absent (m : Store) k : store_get m k = None → store_delete m k = m.
Proof.
  induction m as [|[k' v'] m IH]; simpl; [done|].
  destruct (decide (k' = k)); [done|]. intros H. by rewrite IH.
Qed.

Lemma store_get_elem (m : Store) k r : store_get m k = Some r → (k, r) ∈ m.
Proof.
  induction m as [|[k' v'] m IH]; simpl; [done|].
  destruct (decide (k' = k)) as [->|Hne].
  - intros [= ->]. left.
  - intros H. right. auto.
Qed.

(** ** The routes *)

Lemma jobs_get_upload file uuid now w :
  jobs_get (uploadRoute (Some file) uuid now w).1 uuid
  = Some (mkJob uuid queued 0 file (output_path uuid) now None None None None).
Proof.
  unfold jobs_get, uploadRoute. simpl. rewrite store_get_set_eq. simpl.
  by rewrite list_lookup_middle.
Qed.

(** C7. A valid upload is answered with 202 and, in the state the upload
    handler leaves behind (no other callback has yet run: the conversion
    is only queued on [process.nextTick]), the status route answers with
    status [queued] and progress 0. *)
Theorem upload_then_status_is_queued (file uuid : string) (now : Z) (w : World) :
  let w' := (uploadRoute (Some file) uuid now w).1 in
  code (uploadRoute (Some file) uuid now w).2 = 202
  ∧ nextTicks w' = nextTicks w ++ [uuid]
  ∧ (∃ job, jobs_get w' uuid = Some job ∧ status job = queued ∧ progress job = 0)
  ∧ statusRoute w' uuid = safeSendJSON 200 (StatusJson uuid queued 0 None None).
Proof.
  intros w'. split; [done|]. split; [done|].
  pose proof (jobs_get_upload file uuid now w) as Hget. fold w' in Hget.
  split; [eauto|]. unfold statusRoute. by rewrite Hget.
Qed.

(** C5. The download route answers 404 for an id that is not in the
    store; for an id that is, it answers 400 exactly when the status is
    not [done] or the output file is not on disk, and hands the file out
    exactly when the status is [done] and the output file is on disk. *)
Theorem download_needs_done_and_file (w : World) (k : string) :
  (jobs_get w k = None →
     downloadRoute w k = safeSendJSON 404 (ErrorJson "Job not found"))
  ∧ (∀ job, jobs_get w k = Some job →
       (downloadRoute w k = safeSendJSON 400 (ErrorJson "Output not ready")
          ↔ status job ≠ done ∨ outputPath job ∉ files (disk w))
       ∧ (downloadRoute w k
            = mkResponse 200 (Download (outputPath job) ("audio-" +:+ id job +:+ ".mp3"))
          ↔ status job = done ∧ outputPath job ∈ files (disk w))).
Proof.
  unfold downloadRoute, existsSync. split.
  - by intros ->.
  - intros job ->.
    destruct (decide (status job = done)) as [Hd|Hd].
    + rewrite (bool_decide_false (status job ≠ done)) by tauto.
      destruct (decide (outputPath job ∈ files (disk w))) as [Hf|Hf].
      * rewrite (bool_decide_true _ Hf). simpl. split; split.
        -- intros [=].
        -- tauto.
        -- done.
        -- done.
      * rewrite (bool_decide_false _ Hf). simpl. split; split.
        -- tauto.
        -- done.
        -- intros [=].
        -- tauto.
    + rewrite (bool_decide_true _ Hd). simpl. split; split.
      * tauto.
      * done.
      * intros [=].
      * tauto.
Qed.

(** ** Progress events *)

Lemma Math_round_range (q : Q) : (0 <= q)%Q → (q <= 100)%Q → 0 <= Math_round q <= 100.
Proof.
  intros H0 H100. unfold Math_round. split.
  - change 0 with (Qfloor (0 + (1 # 2))). apply Qfloor_resp_le.
    by apply Qplus_le_compat; [|apply Qle_refl].
  - change 100 with (Qfloor (100 + (1 # 2))). apply Qfloor_resp_le.
    by apply Qplus_le_compat; [|apply Qle_refl].
Qed.

Lemma write_job_lookup r f w j :
  heap w !! r = Some j → heap (write_job r f w) !! r = Some (f j).
Proof. intros H. unfold write_job. simpl. by rewrite list_lookup_alter_eq, H. Qed.

(** C8, as the code has it. A progress event stores
    [Math.round(p.percent || 0)]: an integer, 0 when the percentage is
    [undefined] or [NaN], and within 0..100 whenever the encoder reports
    a percentage within 0..100. Nothing clamps a report outside that
    range. *)
Theorem progress_event_stores_rounded_report (w : World) (run : string * nat)
    (percent : JsNumber) (job : Job) :
  run ∈ encoders w →
  heap w !! run.2 = Some job →
  ∃ job', heap (step w (EncProgress run percent)) !! run.2 = Some job'
    ∧ progress job' = Math_round (or_zero percent)
    ∧ status job' = status job
    ∧ (percent = Undefined ∨ percent = NaN → progress job' = 0)
    ∧ (∀ q, percent = Num q → (0 <= q)%Q → (q <= 100)%Q → 0 <= progress job' <= 100).
Proof.
  intros Hrun Hjob. simpl. rewrite (bool_decide_true _ Hrun). unfold onProgress.
  eexists. split; [by apply write_job_lookup|]. simpl.
  split; [done|]. split; [done|]. split.
  - by intros [-> | ->].
  - intros q -> ? ?. by apply Math_round_range.
Qed.

(** ** Eviction *)

Lemma shrinks_refl d : shrinks d d.
Proof.
  exists []. rewrite app_nil_r. split; [done|]. split; [constructor|].
  split; [set_solver|]. intros p Hp. by apply elem_of_nil in Hp.
Qed.

Lemma shrinks_trans d1 d2 d3 : shrinks d1 d2 → shrinks d2 d3 → shrinks d1 d3.
Proof.
  intros (l1 & Hu1 & Hn1 & Hf1 & Hin1) (l2 & Hu2 & Hn2 & Hf2 & Hin2).
  exists (l1 ++ l2). split; [by rewrite Hu2, Hu1, app_assoc|]. split.
  - apply NoDup_app. split; [done|]. split; [|done].
    intros p Hp1 Hp2. apply Hin2 in Hp2. rewrite Hf1 in Hp2. set_solver.
  - split.
    + rewrite Hf2, Hf1. set_solver.
    + intros p [Hp|Hp]%elem_of_app; [by apply Hin1|].
      apply Hin2 in Hp. rewrite Hf1 in Hp. set_solver.
Qed.

Lemma shrinks_twice d1 d2 d3 :
  shrinks d1 d2 → shrinks d2 d3 →
  ∃ l1 l2, unlinked d2 = unlinked d1 ++ l1
           ∧ unlinked d3 = unlinked d2 ++ l2
           ∧ NoDup (l1 ++ l2).
Proof.
  intros (l1 & Hu1 & Hn1 & Hf1 & Hin1) (l2 & Hu2 & Hn2 & Hf2 & Hin2).
  exists l1, l2. split; [done|]. split; [done|].
  apply NoDup_app. split; [done|]. split; [|done].
  intros p Hp1 Hp2. apply Hin2 in Hp2. rewrite Hf1 in Hp2. set_solver.
Qed.

Lemma unlinkSync_shrinks denied p d : shrinks d (unlinkSync denied p d).2.
Proof.
  unfold unlinkSync, existsSync. case_bool_decide as Hp; [|apply shrinks_refl].
  case_bool_decide; [apply shrinks_refl|]. simpl.
  exists [p]. split; [done|]. split; [apply NoDup_singleton|].
  split; [set_solver|]. intros q ->%list_elem_of_singleton. done.
Qed.

Lemma removeIfPresent_shrinks denied p d : shrinks d (removeIfPresent denied p d).2.
Proof.
  unfold removeIfPresent. destruct (truthy p && existsSync d p).
  - apply unlinkSync_shrinks.
  - apply shrinks_refl.
Qed.

Lemma removeFiles_shrinks denied j d : shrinks d (removeFiles denied j d).2.
Proof.
  unfold removeFiles.
  pose proof (removeIfPresent_shrinks denied (inputPath j) d) as H1.
  destruct (removeIfPresent denied (inputPath j) d) as [[|e] d1]; simpl in *; [|done].
  eapply shrinks_trans; [done|]. apply removeIfPresent_shrinks.
Qed.

Lemma removeIfPresent_absent denied p d :
  p ∉ files d → removeIfPresent denied p d = (Returned, d).
Proof.
  intros Hp. unfold removeIfPresent, existsSync.
  rewrite (bool_decide_false _ Hp). by rewrite andb_false_r.
Qed.

(** What [evict] leaves alone, and what it does to the store. *)
Lemma evict_frame label jobId r denied w :
  heap (evict label jobId r denied w) = heap w
  ∧ jobs (evict label jobId r denied w) = store_delete (jobs w) jobId
  ∧ nextTicks (evict label jobId r denied w) = nextTicks w
  ∧ encoders (evict label jobId r denied w) = encoders w
  ∧ timers (evict label jobId r denied w) = timers w
  ∧ shrinks (disk w) (disk (evict label jobId r denied w)).
Proof.
  unfold evict.
  assert (shrinks (disk w)
            (match heap w !! r with
             | Some job => removeFiles denied job (disk w)
             | None => (Returned, disk w)
             end).2) as Hs.
  { destruct (heap w !! r); [apply removeFiles_shrinks|apply shrinks_refl]. }
  destruct (match heap w !! r with
            | Some job => removeFiles denied job (disk w)
            | None => (Returned, disk w)
            end) as [[|e] d]; simpl in *; done.
Qed.

Lemma evict_caught label jobId r denied w job e d :
  heap w !! r = Some job →
  removeFiles denied job (disk w) = (Threw e, d) →
  evict label jobId r denied w
  = with_jobs (store_delete (jobs w) jobId) (log (label +:+ " " +:+ e) (with_disk d w)).
Proof. intros Hj Hr. unfold evict. by rewrite Hj, Hr. Qed.

Lemma sweep_loop_frame entries now denied w :
  heap (sweep_loop entries now denied w) = heap w
  ∧ nextTicks (sweep_loop entries now denied w) = nextTicks w
  ∧ encoders (sweep_loop entries now denied w) = encoders w
  ∧ timers (sweep_loop entries now denied w) = timers w
  ∧ shrinks (disk w) (disk (sweep_loop entries now denied w))
  ∧ ∀ k, store_get (jobs w) k = None →
         store_get (jobs (sweep_loop entries now denied w)) k = None.
Proof.
  revert w. induction entries as [|[k r] rest IH]; intros w; simpl.
  - repeat split; auto using shrinks_refl.
  - set (w' := match heap w !! r with
               | Some job => if expired now job
                             then evict "sweep cleanup error" k r denied w else w
               | None => w
               end).
    assert (heap w' = heap w ∧ nextTicks w' = nextTicks w ∧ encoders w' = encoders w
            ∧ timers w' = timers w ∧ shrinks (disk w) (disk w')
            ∧ ∀ k0, store_get (jobs w) k0 = None → store_get (jobs w') k0 = None)
      as (Hh & Hq & He & Ht & Hd & Hj).
    { subst w'. destruct (heap w !! r) as [job|]; [destruct (expired now job)|];
        try (repeat split; auto using shrinks_refl; fail).
      destruct (evict_frame "sweep cleanup error" k r denied w)
        as (? & Hjobs & ? & ? & ? & ?).
      repeat split; try done. intros k0 Hk0. rewrite Hjobs.
      by apply store_get_delete_None. }
    destruct (IH w') as (Hh' & Hq' & He' & Ht' & Hd' & Hj').
    repeat split; try congruence.
    + by eapply shrinks_trans.
    + auto.
Qed.

Lemma sweep_loop_evicts entries now denied w k r job :
  (k, r) ∈ entries →
  heap w !! r = Some job →
  expired now job = true →
  store_get (jobs (sweep_loop entries now denied w)) k = None.
Proof.
  revert w. induction entries as [|[k' r'] rest IH]; intros w Hin Hjob Hexp.
  - by apply elem_of_nil in Hin.
  - simpl. apply elem_of_cons in Hin as [[= <- <-]|Hin].
    + rewrite Hjob, Hexp. apply sweep_loop_frame.
      destruct (evict_frame "sweep cleanup error" k r denied w) as (_ & -> & _).
      apply store_get_delete_eq.
    + apply IH; [done| |done].
      destruct (heap w !! r') as [job'|]; [destruct (expired now job')|]; try done.
      by destruct (evict_frame "sweep cleanup error" k' r' denied w) as (-> & _).
Qed.

Lemma sweep_evicts now denied w k r job :
  store_get (jobs w) k = Some r →
  heap w !! r = Some job →
  expired now job = true →
  store_get (jobs (sweep now denied w)) k = None.
Proof. intros Hk. apply sweep_loop_evicts. by apply store_get_elem. Qed.

Lemma timerFire_step w i t denied :
  list_find (λ t', handle t' = handle t) (timers w) = Some (i, t) →
  step w (TimerFire (handle t) denied)
  = cleanupCallback t denied
      (with_timers (filter (λ t', handle t' ≠ handle t) (timers w)) (timerSeq w) w).
Proof. intros H. simpl. by rewrite H. Qed.

Lemma not_found_routes w k :
  store_get (jobs w) k = None →
  statusRoute w k = safeSendJSON 404 (ErrorJson "Job not found")
  ∧ downloadRoute w k = safeSendJSON 404 (ErrorJson "Job not found").
Proof. intros H. unfold statusRoute, downloadRoute, jobs_get. by rewrite H. Qed.

(** C9. Whatever the two deletions do (whichever paths the operating
    system refuses to unlink), the cleanup timer's callback and the sweep
    complete and leave the store without the job: the timer for its job
    id, the sweep for every job whose expiry has passed. A deletion that
    throws is caught and ends up as a line on the console; both routes
    answer a later request for the id with the plain 404 of an unknown
    id. *)
Theorem eviction_removes_job_despite_delete_errors :
  (∀ w i t denied,
     list_find (λ t', handle t' = handle t) (timers w) = Some (i, t) →
     let w' := step w (TimerFire (handle t) denied) in
     store_get (jobs w') (timerJobId t) = None
     ∧ statusRoute w' (timerJobId t) = safeSendJSON 404 (ErrorJson "Job not found")
     ∧ downloadRoute w' (timerJobId t) = safeSendJSON 404 (ErrorJson "Job not found"))
  ∧ (∀ w now denied k r job,
       store_get (jobs w) k = Some r →
       heap w !! r = Some job →
       expired now job = true →
       let w' := step w (Sweep now denied) in
       store_get (jobs w') k = None
       ∧ statusRoute w' k = safeSendJSON 404 (ErrorJson "Job not found")
       ∧ downloadRoute w' k = safeSendJSON 404 (ErrorJson "Job not found"))
  ∧ (∀ label jobId r denied w job e d,
       heap w !! r = Some job →
       removeFiles denied job (disk w) = (Threw e, d) →
       evict label jobId r denied w
       = with_jobs (store_delete (jobs w) jobId) (log (label +:+ " " +:+ e) (with_disk d w))).
Proof.
  split; [|split].
  - intros w i t denied Hfind w'.
    assert (store_get (jobs w') (timerJobId t) = None) as Hnone.
    { subst w'. rewrite (timerFire_step _ _ _ _ Hfind). unfold cleanupCallback.
      destruct (evict_frame "cleanup error" (timerJobId t) (timerJob t) denied
                  (with_timers (filter (λ t', handle t' ≠ handle t) (timers w)) (timerSeq w) w))
        as (_ & -> & _).
      apply store_get_delete_eq. }
    split; [done|]. by apply not_found_routes.
  - intros w now denied k r job Hk Hjob Hexp w'.
    assert (store_get (jobs w') k = None) as Hnone by by eapply sweep_evicts.
    split; [done|]. by apply not_found_routes.
  - intros. by eapply evict_caught.
Qed.

(** Only the upload route adds to the store, only eviction removes. *)

Lemma scheduleCleanup_jobs jobId delay now w : jobs (scheduleCleanup jobId delay now w) = jobs w.
Proof. unfold scheduleCleanup. by destruct (store_get (jobs w) jobId). Qed.

Lemma convertToMp3_jobs jobId thrown now w : jobs (convertToMp3 jobId thrown now w) = jobs w.
Proof.
  unfold convertToMp3. destruct (store_get (jobs w) jobId); [|done].
  destruct thrown; [|done]. by rewrite scheduleCleanup_jobs.
Qed.

Lemma step_jobs_absent w e k :
  store_get (jobs w) k = None →
  uploaded e ≠ Some k →
  store_get (jobs (step w e)) k = None.
Proof.
  intros Hk Hup. destruct e as [[file|] uuid now|thrown now|run p|run t1 t2|run err t1 t2
                               |h denied|now denied|p]; simpl in *; try done.
  - rewrite store_get_set_ne; [done|congruence].
  - destruct (nextTicks w); [done|]. by rewrite convertToMp3_jobs.
  - by case_bool_decide.
  - case_bool_decide; [|done]. unfold onEnd. simpl. by rewrite scheduleCleanup_jobs.
  - case_bool_decide; [|done]. unfold onError. simpl. by rewrite scheduleCleanup_jobs.
  - destruct (list_find _ _) as [[i t]|]; [|done]. unfold cleanupCallback.
    match goal with |- context [evict ?l ?j ?r ?d ?w0] =>
      destruct (evict_frame l j r d w0) as (_ & -> & _) end.
    by apply store_get_delete_None.
  - by apply sweep_loop_frame.
Qed.

Lemma exec_jobs_absent tr w k :
  store_get (jobs w) k = None →
  k ∉ uploads tr →
  store_get (jobs (exec w tr)) k = None.
Proof.
  revert w. induction tr as [|e tr IH]; intros w Hk Hup; [done|].
  simpl. unfold uploads in Hup. simpl in Hup. apply IH.
  - apply step_jobs_absent; [done|]. intros He. rewrite He in Hup. set_solver.
  - unfold uploads. destruct (uploaded e); set_solver.
Qed.

Lemma cleanupCallback_frame t denied w :
  jobs (cleanupCallback t denied w) = store_delete (jobs w) (timerJobId t)
  ∧ heap (cleanupCallback t denied w) = heap w
  ∧ timers (cleanupCallback t denied w) = timers w
  ∧ shrinks (disk w) (disk (cleanupCallback t denied w)).
Proof.
  unfold cleanupCallback.
  destruct (evict_frame "cleanup error" (timerJobId t) (timerJob t) denied w)
    as (? & ? & ? & ? & ? & ?). done.
Qed.

(** C2. Eviction is idempotent. Deleting a file that is not on disk does
    nothing and throws nothing; [jobs.delete] of an absent id leaves the
    store as it is. When the cleanup timer of a job and a sweep that
    finds the job expired both run, in either order, the first of them
    removes the job from the store, the second finds it gone, no path is
    unlinked twice over the two callbacks, and the id stays out of the
    store in every continuation in which [uuidv4] does not hand the same
    id out again. *)
Theorem eviction_idempotent :
  (∀ denied p d, p ∉ files d → removeIfPresent denied p d = (Returned, d))
  ∧ (∀ m k, store_get m k = None → store_delete m k = m)
  ∧ (∀ w i t job now d1 d2,
       list_find (λ t', handle t' = handle t) (timers w) = Some (i, t) →
       store_get (jobs w) (timerJobId t) = Some (timerJob t) →
       heap w !! timerJob t = Some job →
       expired now job = true →
       ∀ first second,
         (first = TimerFire (handle t) d1 ∧ second = Sweep now d2)
         ∨ (first = Sweep now d2 ∧ second = TimerFire (handle t) d1) →
         let w1 := step w first in
         let w2 := step w1 second in
         store_get (jobs w1) (timerJobId t) = None
         ∧ store_get (jobs w2) (timerJobId t) = None
         ∧ (∃ l1 l2, unlinked (disk w1) = unlinked (disk w) ++ l1
                     ∧ unlinked (disk w2) = unlinked (disk w1) ++ l2
                     ∧ NoDup (l1 ++ l2))
         ∧ ∀ tr, timerJobId t ∉ uploads tr →
                 store_get (jobs (exec w2 tr)) (timerJobId t) = None).
Proof.
  split; [apply removeIfPresent_absent|]. split; [apply store_delete_absent|].
  intros w i t job now d1 d2 Hfind Hget Hjob Hexp first second Horder w1 w2.
  assert (store_get (jobs w1) (timerJobId t) = None
          ∧ store_get (jobs w2) (timerJobId t) = None
          ∧ shrinks (disk w) (disk w1) ∧ shrinks (disk w1) (disk w2)) as (H1 & H2 & H3 & H4).
  { subst w1 w2. destruct Horder as [[-> ->]|[-> ->]].
    - rewrite (timerFire_step _ _ _ _ Hfind).
      set (w0 := with_timers _ _ w).
      destruct (cleanupCallback_frame t d1 w0) as (Hj & Hh & Ht & Hd).
      assert (store_get (jobs (cleanupCallback t d1 w0)) (timerJobId t) = None) as Hnone.
      { rewrite Hj. apply store_get_delete_eq. }
      split; [done|]. change (step ?x (Sweep now d2)) with (sweep now d2 x).
      unfold sweep. split; [by apply sweep_loop_frame|].
      split; [exact Hd|]. apply sweep_loop_frame.
    - change (step w (Sweep now d2)) with (sweep now d2 w).
      assert (store_get (jobs (sweep now d2 w)) (timerJobId t) = None) as Hnone
        by by eapply sweep_evicts.
      split; [done|].
      assert (timers (sweep now d2 w) = timers w) as Htm by apply sweep_loop_frame.
      rewrite (timerFire_step _ i t); [|by rewrite Htm].
      set (w0 := with_timers _ _ (sweep now d2 w)).
      destruct (cleanupCallback_frame t d1 w0) as (Hj & Hh & Ht & Hd).
      split; [rewrite Hj; apply store_get_delete_eq|].
      split; [apply sweep_loop_frame|exact Hd]. }
  split; [done|]. split; [done|]. split; [by eapply shrinks_twice|].
  intros tr Htr. by apply exec_jobs_absent.
Qed.

(** ** Invariants of the store and the heap *)

Lemma store_set_elem (m : Store) k v k' r' :
  (k', r') ∈ store_set m k v → (k', r') = (k, v) ∨ (k', r') ∈ m.
Proof.
  induction m as [|[k0 v0] m IH]; simpl.
  - intros ->%list_elem_of_singleton. by left.
  - destruct (decide (k0 = k)) as [->|Hne].
    + intros [->|H]%elem_of_cons; [by left|]. right. by right.
    + intros [->|H]%elem_of_cons; [right; left|].
      destruct (IH H) as [?|?]; [by left|]. right. by right.
Qed.

Lemma store_delete_elem (m : Store) k k' r' :
  (k', r') ∈ store_delete m k → (k', r') ∈ m.
Proof.
  induction m as [|[k0 v0] m IH]; simpl; [done|].
  destruct (decide (k0 = k)) as [->|Hne].
  - intros H. right. auto.
  - intros [->|H]%elem_of_cons; [left|]. right. auto.
Qed.

Lemma lookup_alter_Some (f : Job → Job) r (h : list Job) r' j' :
  alter f r h !! r' = Some j' →
  ∃ j0, h !! r' = Some j0 ∧ ((r' = r ∧ j' = f j0) ∨ (r' ≠ r ∧ j' = j0)).
Proof.
  destruct (decide (r = r')) as [->|Hne].
  - rewrite list_lookup_alter_eq. destruct (h !! r') as [j0|]; simpl; [|done].
    intros [= <-]. eauto.
  - rewrite list_lookup_alter_ne by done. intros H. exists j'. split; [done|].
    right. split; [congruence|done].
Qed.

Lemma keeps_refl h : keeps h h.
Proof. intros r j H. eauto. Qed.

Lemma keeps_trans h1 h2 h3 : keeps h1 h2 → keeps h2 h3 → keeps h1 h3.
Proof.
  intros H12 H23 r j H. destruct (H12 r j H) as (j2 & Hj2 & ? & ? & ?).
  destruct (H23 r j2 Hj2) as (j3 & Hj3 & ? & ? & ?). exists j3.
  repeat split; congruence.
Qed.

Lemma keeps_alter (f : Job → Job) r h :
  (∀ j, id (f j) = id j ∧ inputPath (f j) = inputPath j ∧ outputPath (f j) = outputPath j) →
  keeps h (alter f r h).
Proof.
  intros Hf r' j H. destruct (decide (r = r')) as [->|Hne].
  - exists (f j). rewrite list_lookup_alter_eq, H. split; [done|]. apply Hf.
  - exists j. by rewrite list_lookup_alter_ne.
Qed.

Lemma keeps_app h l : keeps h (h ++ l).
Proof. intros r j H. exists j. split; [|done]. by apply lookup_app_l_Some. Qed.

Lemma scheduleCleanup_keeps k delay now w :
  keeps (heap w) (heap (scheduleCleanup k delay now w)).
Proof.
  unfold scheduleCleanup. destruct (store_get (jobs w) k); [|apply keeps_refl].
  simpl. by apply keeps_alter.
Qed.

Lemma convertToMp3_keeps k thrown now w :
  keeps (heap w) (heap (convertToMp3 k thrown now w)).
Proof.
  unfold convertToMp3. destruct (store_get (jobs w) k) as [r|]; [|apply keeps_refl].
  destruct thrown as [err|]; simpl.
  - eapply keeps_trans; [|apply scheduleCleanup_keeps]. simpl.
    eapply keeps_trans; by apply keeps_alter.
  - by apply keeps_alter.
Qed.

Lemma step_keeps w e : keeps (heap w) (heap (step w e)).
Proof.
  destruct e as [[file|] uuid now|thrown now|run p|run t1 t2|run err t1 t2
                |h denied|now denied|p]; simpl; try apply keeps_refl.
  - apply keeps_app.
  - destruct (nextTicks w); [apply keeps_refl|].
    apply (convertToMp3_keeps _ _ _ (with_nextTicks _ w)).
  - case_bool_decide; [|apply keeps_refl]. by apply keeps_alter.
  - case_bool_decide; [|apply keeps_refl]. unfold onEnd. simpl.
    eapply keeps_trans; [|apply scheduleCleanup_keeps]. by apply keeps_alter.
  - case_bool_decide; [|apply keeps_refl]. unfold onError. simpl.
    eapply keeps_trans; [|apply scheduleCleanup_keeps]. by apply keeps_alter.
  - destruct (list_find _ _) as [[i t]|]; [|apply keeps_refl].
    destruct (cleanupCallback_frame t denied
                (with_timers (filter (λ t', handle t' ≠ h) (timers w)) (timerSeq w) w))
      as (_ & -> & _). apply keeps_refl.
  - destruct (sweep_loop_frame (jobs w) now denied w) as (Hh & _). unfold sweep.
    rewrite Hh. apply keeps_refl.
Qed.

Lemma sweep_loop_jobs_sub entries now denied w k r :
  (k, r) ∈ jobs (sweep_loop entries now denied w) → (k, r) ∈ jobs w.
Proof.
  revert w. induction entries as [|[k' r'] rest IH]; intros w; simpl; [done|].
  intros H. apply IH in H.
  destruct (heap w !! r') as [job|]; [destruct (expired now job)|]; try done.
  destruct (evict_frame "sweep cleanup error" k' r' denied w) as (_ & Hj & _).
  rewrite Hj in H. by eapply store_delete_elem.
Qed.

Lemma step_jobs_sub w e k r :
  uploaded e = None → (k, r) ∈ jobs (step w e) → (k, r) ∈ jobs w.
Proof.
  destruct e as [[file|] uuid now|thrown now|run p|run t1 t2|run err t1 t2
                |h denied|now denied|p]; simpl; try done; intros _.
  - destruct (nextTicks w); [done|]. by rewrite convertToMp3_jobs.
  - by case_bool_decide.
  - case_bool_decide; [|done]. unfold onEnd. simpl. by rewrite scheduleCleanup_jobs.
  - case_bool_decide; [|done]. unfold onError. simpl. by rewrite scheduleCleanup_jobs.
  - destruct (list_find _ _) as [[i t]|]; [|done].
    destruct (cleanupCallback_frame t denied
                (with_timers (filter (λ t', handle t' ≠ h) (timers w)) (timerSeq w) w))
      as (-> & _). apply store_delete_elem.
  - apply sweep_loop_jobs_sub.
Qed.

Lemma store_wf_step w e : store_wf w → store_wf (step w e).
Proof.
  intros Hwf. destruct (uploaded e) as [uuid|] eqn:Hup.
  - destruct e as [[file|] uuid' now| | | | | | |]; try done. simpl in Hup.
    injection Hup as ->. intros k r Hin. simpl in *.
    apply store_set_elem in Hin as [[= -> ->]|Hin].
    + eexists. split; [apply list_lookup_middle; done|]. done.
    + destruct (Hwf k r Hin) as (j & Hj & ? & ?). exists j. split; [|done].
      by apply lookup_app_l_Some.
  - intros k r Hin. apply step_jobs_sub in Hin; [|done].
    destruct (Hwf k r Hin) as (j & Hj & Hid & Hout).
    destruct (step_keeps w e r j Hj) as (j' & Hj' & ? & ? & ?).
    exists j'. split; [done|]. split; congruence.
Qed.

Lemma store_wf_exec tr w : store_wf w → store_wf (exec w tr).
Proof.
  revert w. induction tr as [|e tr IH]; intros w Hwf; [done|].
  simpl. apply IH. by apply store_wf_step.
Qed.

Lemma store_wf_initial : store_wf initial.
Proof. intros k r Hin. by apply elem_of_nil in Hin. Qed.

Lemma store_wf_get w k j :
  store_wf w → jobs_get w k = Some j → id j = k ∧ outputPath j = output_path k.
Proof.
  intros Hwf. unfold jobs_get. destruct (store_get (jobs w) k) as [r|] eqn:Hk; [|done].
  simpl. intros Hj. apply store_get_elem in Hk.
  destruct (Hwf k r Hk) as (j' & Hj' & ? & ?). by simplify_eq.
Qed.

(** ** Output paths *)

Lemma string_app_cons a (s t : string) : String a s +:+ t = String a (s +:+ t).
Proof. reflexivity. Qed.

Lemma string_app_length (s t : string) :
  String.length (s +:+ t) = (String.length s + String.length t)%nat.
Proof.
  induction s as [|a s IH]; [done|]. rewrite string_app_cons. simpl. by rewrite IH.
Qed.

Lemma string_app_inj_r (s1 s2 t : string) : s1 +:+ t = s2 +:+ t → s1 = s2.
Proof.
  revert s2. induction s1 as [|a s1 IH]; intros [|b s2] H.
  - done.
  - apply (f_equal String.length) in H. rewrite string_app_cons in H.
    change ("" +:+ t) with t in H. simpl in H. rewrite string_app_length in H. lia.
  - apply (f_equal String.length) in H. rewrite string_app_cons in H.
    change ("" +:+ t) with t in H. simpl in H. rewrite string_app_length in H. lia.
  - rewrite !string_app_cons in H. injection H as -> H. f_equal. by apply IH.
Qed.

Lemma output_path_inj k1 k2 : output_path k1 = output_path k2 → k1 = k2.
Proof.
  unfold output_path, path_join. intros H.
  apply (inj (String.app OUT_DIR)) in H. apply (inj (String.app "/")) in H.
  by apply string_app_inj_r in H.
Qed.

Lemma removeIfPresent_other denied p q d :
  q ≠ p → q ∈ files d → q ∈ files (removeIfPresent denied p d).2.
Proof.
  intros Hne Hq. unfold removeIfPresent, unlinkSync.
  destruct (truthy p && existsSync d p); [|done].
  destruct (existsSync d p); [|done]. case_bool_decide; [done|]. simpl. set_solver.
Qed.

(** C10. After any sequence of events, every job in the store has the
    output path [OUT_DIR/<id>.mp3] built from the key it is stored under,
    so two jobs stored under different ids have different output paths,
    and removing the output file of the one leaves the output file of
    the other on disk. *)
Theorem distinct_jobs_have_distinct_output_paths (tr : list Event) (k1 k2 : string)
    (j1 j2 : Job) :
  let w := exec initial tr in
  jobs_get w k1 = Some j1 →
  jobs_get w k2 = Some j2 →
  k1 ≠ k2 →
  id j1 = k1 ∧ id j2 = k2
  ∧ outputPath j1 = path_join OUT_DIR (k1 +:+ ".mp3")
  ∧ outputPath j2 = path_join OUT_DIR (k2 +:+ ".mp3")
  ∧ outputPath j1 ≠ outputPath j2
  ∧ ∀ denied d, outputPath j2 ∈ files d →
                outputPath j2 ∈ files (removeIfPresent denied (outputPath j1) d).2.
Proof.
  intros w H1 H2 Hne.
  assert (store_wf w) as Hwf by apply store_wf_exec, store_wf_initial.
  destruct (store_wf_get _ _ _ Hwf H1) as [Hid1 Ho1].
  destruct (store_wf_get _ _ _ Hwf H2) as [Hid2 Ho2].
  assert (outputPath j1 ≠ outputPath j2) as Hpaths.
  { rewrite Ho1, Ho2. intros H. by apply output_path_inj in H. }
  repeat split; try done. intros denied d. apply removeIfPresent_other. congruence.
Qed.

(** ** The invariant is kept by every callback *)

Lemma Inv_frame u en w w' :
  Inv u en w →
  heap w' = heap w → jobs w' = jobs w → nextTicks w' = nextTicks w →
  encoders w' = encoders w → (∀ t, t ∈ timers w' → t ∈ timers w) →
  Inv u en w'.
Proof.
  intros [] Hh Hj Hq He Ht.
  constructor; unfold store_wf; rewrite ?Hh, ?Hj, ?Hq, ?He; auto.
Qed.

Lemma Inv_ended u en en' w :
  Inv u en w → (∀ run, run ∈ en → run ∈ en') → Inv u en' w.
Proof.
  intros [] Hsub. constructor; try done.
  intros run Hrun. destruct (inv_runs0 run Hrun) as (j & ? & ? & ? & Hp).
  exists j. repeat split; try done. intros Hn. apply Hp. intros Hin. by apply Hn, Hsub.
Qed.

Lemma Inv_pop u en w k q :
  Inv u en w → nextTicks w = k :: q → Inv u en (with_nextTicks q w).
Proof.
  intros [] Hq. rewrite Hq in *. constructor; simpl; try done.
  - intros k' r j Hk'. apply inv_ticks0. by right.
  - by apply NoDup_cons in inv_ticks_nodup0 as [_ ?].
  - intros k' Hk'. apply inv_ticks_used0. by right.
Qed.

Lemma Inv_write u en w r j (f : Job → Job) :
  Inv u en w →
  heap w !! r = Some j →
  id (f j) = id j →
  outputPath (f j) = outputPath j →
  (∀ k, k ∈ nextTicks w → store_get (jobs w) k = Some r → status (f j) = queued) →
  (∀ run, run ∈ encoders w → run.2 = r →
     status (f j) ≠ queued ∧ (run ∉ en → status (f j) = processing)) →
  (status (f j) = processing → store_get (jobs w) (id j) = Some r) →
  (is_terminal (status j) = true → is_terminal (status (f j)) = true) →
  (is_terminal (status (f j)) = false → expiresAt (f j) = None) →
  (status (f j) = error ↔ is_Some (jobError (f j))) →
  Inv u en (write_job r f w).
Proof.
  intros [] Hj Hid Hout Hticks Hruns Hlive Hterm Hexp Herr.
  assert (∀ r' j', heap (write_job r f w) !! r' = Some j' →
            ∃ j0, heap w !! r' = Some j0
                  ∧ ((r' = r ∧ j0 = j ∧ j' = f j) ∨ (r' ≠ r ∧ j' = j0))) as Hlook.
  { intros r' j' H. apply lookup_alter_Some in H as (j0 & Hj0 & [[-> ->]|[? ->]]).
    - exists j0. split; [done|]. left. by simplify_eq.
    - exists j0. split; [done|]. by right. }
  assert (∀ r' j0, heap w !! r' = Some j0 →
            ∃ j', heap (write_job r f w) !! r' = Some j'
                  ∧ ((r' = r ∧ j0 = j ∧ j' = f j) ∨ (r' ≠ r ∧ j' = j0))) as Hlook'.
  { intros r' j0 H. destruct (decide (r' = r)) as [->|Hne].
    - exists (f j). split; [by apply write_job_lookup|]. left. by simplify_eq.
    - exists j0. simpl. rewrite list_lookup_alter_ne by done. split; [done|]. by right. }
  constructor; simpl.
  - intros k r' Hin. destruct (inv_store0 k r' Hin) as (j0 & Hj0 & Hk & Ho).
    destruct (Hlook' r' j0 Hj0) as (j' & Hj' & [(-> & -> & ->)|[? ->]]).
    + exists (f j). split; [done|]. split; congruence.
    + by exists j0.
  - intros r' j' H. destruct (Hlook r' j' H) as (j0 & Hj0 & [(-> & -> & ->)|[? ->]]).
    + rewrite Hid. eauto.
    + eauto.
  - intros r1 r2 j1 j2 H1 H2 Heq.
    destruct (Hlook r1 j1 H1) as (a & Ha & [(-> & -> & ->)|[? ->]]);
      destruct (Hlook r2 j2 H2) as (b & Hb & [(-> & -> & ->)|[? ->]]); try done.
    + rewrite Hid in Heq. eauto.
    + rewrite Hid in Heq. eauto.
    + eauto.
  - intros k r' j' Hk Hget H.
    destruct (Hlook r' j' H) as (j0 & Hj0 & [(-> & -> & ->)|[? ->]]); eauto.
  - done.
  - done.
  - intros run Hrun. destruct (inv_runs0 run Hrun) as (j0 & Hj0 & Hrid & Hnq & Hp).
    destruct (Hlook' _ j0 Hj0) as (j' & Hj' & [(Hr & -> & ->)|[? ->]]).
    + exists (f j). destruct (Hruns run Hrun Hr) as [? ?]. repeat split; try done. congruence.
    + by exists j0.
  - intros r' j' H Hst.
    destruct (Hlook r' j' H) as (j0 & Hj0 & [(-> & -> & ->)|[? ->]]).
    + rewrite Hid. auto.
    + eauto.
  - intros t Ht. destruct (inv_timers0 t Ht) as (j0 & Hj0 & Htid & Htt).
    destruct (Hlook' _ j0 Hj0) as (j' & Hj' & [(Hr & -> & ->)|[? ->]]).
    + exists (f j). repeat split; try done; [congruence|auto].
    + by exists j0.
  - intros r' j' H Hst.
    destruct (Hlook r' j' H) as (j0 & Hj0 & [(-> & -> & ->)|[? ->]]); eauto.
  - intros r' j' H.
    destruct (Hlook r' j' H) as (j0 & Hj0 & [(-> & -> & ->)|[? ->]]); eauto.
Qed.

Lemma Inv_add_run u en w k r j :
  Inv u en w →
  heap w !! r = Some j → id j = k → status j = processing →
  Inv u en (with_encoders (encoders w ++ [(k, r)]) w).
Proof.
  intros [] Hj Hid Hst. constructor; simpl; try done.
  intros run [Hrun| ->%list_elem_of_singleton]%elem_of_app; [auto|].
  exists j. simpl. repeat split; try done. by rewrite Hst.
Qed.

Lemma Inv_add_timer u en w h k r j n :
  Inv u en w →
  heap w !! r = Some j → id j = k → is_terminal (status j) = true →
  Inv u en (with_timers (timers w ++ [mkTimer h k r]) n w).
Proof.
  intros [] Hj Hid Hst. constructor; simpl; try done.
  intros t [Ht| ->%list_elem_of_singleton]%elem_of_app; [auto|].
  by exists j.
Qed.

Lemma Inv_scheduleCleanup u en w k delay now :
  Inv u en w →
  (∀ r j, store_get (jobs w) k = Some r → heap w !! r = Some j →
          is_terminal (status j) = true) →
  Inv u en (scheduleCleanup k delay now w).
Proof.
  intros HI Hterm. unfold scheduleCleanup.
  destruct (store_get (jobs w) k) as [r|] eqn:Hk; [|done].
  destruct (inv_store _ _ _ HI k r (store_get_elem _ _ _ Hk)) as (j & Hj & Hid & _).
  pose proof (Hterm r j eq_refl Hj) as Ht.
  eapply (Inv_add_timer _ _ (write_job r (set_expiry (now + delay) (timerSeq w)) w)
            _ _ _ (set_expiry (now + delay) (timerSeq w) j)).
  - eapply Inv_write; try done; simpl.
    + intros k' Hk' Hget. pose proof (inv_ticks _ _ _ HI k' r j Hk' Hget Hj) as Hq.
      by rewrite Hq in Ht.
    + intros run Hrun Hr.
      destruct (inv_runs _ _ _ HI run Hrun) as (j0 & Hj0 & _ & Hnq & Hp).
      rewrite Hr in Hj0. simplify_eq. split; [done|]. done.
    + intros Hp. by rewrite Hp in Ht.
    + intros Hf. by rewrite Hf in Ht.
    + by apply (inv_error _ _ _ HI r j).
  - by apply write_job_lookup.
  - done.
  - done.
Qed.

Lemma Inv_delete u en w w' k :
  Inv u en w →
  heap w' = heap w → jobs w' = store_delete (jobs w) k →
  nextTicks w' = nextTicks w → encoders w' = encoders w →
  (∀ t, t ∈ timers w' → t ∈ timers w) →
  (∀ r j, heap w !! r = Some j → id j = k → status j ≠ processing) →
  Inv u en w'.
Proof.
  intros [] Hh Hj Hq He Ht Hk.
  constructor; unfold store_wf; rewrite ?Hh, ?Hj, ?Hq, ?He; auto.
  - intros k' r Hin. apply inv_store0. by eapply store_delete_elem.
  - intros k' r j Hk' Hget. apply store_get_delete_Some in Hget as [_ Hget]. eauto.
  - intros r j Hr Hst. rewrite store_get_delete_ne; [auto|].
    intros Heq. by eapply Hk.
Qed.

Lemma Inv_evict u en w label k r j denied :
  Inv u en w →
  heap w !! r = Some j → id j = k → is_terminal (status j) = true →
  Inv u en (evict label k r denied w).
Proof.
  intros HI Hj Hid Ht.
  destruct (evict_frame label k r denied w) as (Hh & Hjobs & Hq & He & Htm & _).
  eapply Inv_delete; try done.
  - by rewrite Htm.
  - intros r' j' Hj' Hid' Hst.
    assert (r' = r) as -> by (eapply (inv_ids _ _ _ HI); [done..|congruence]).
    simplify_eq. by rewrite Hst in Ht.
Qed.

Lemma not_terminal_iff s : is_terminal s = false ↔ s = queued ∨ s = processing.
Proof. destruct s; simpl; naive_solver. Qed.

Lemma expired_terminal u en w r j now :
  Inv u en w → heap w !! r = Some j → expired now j = true →
  is_terminal (status j) = true.
Proof.
  intros HI Hj Hexp. destruct (is_terminal (status j)) eqn:Ht; [done|].
  unfold expired in Hexp. by rewrite (inv_expiry _ _ _ HI r j Hj Ht) in Hexp.
Qed.

Lemma Inv_sweep_loop u en entries now denied w :
  Inv u en w →
  (∀ k r, (k, r) ∈ entries → ∃ j, heap w !! r = Some j ∧ id j = k) →
  Inv u en (sweep_loop entries now denied w).
Proof.
  revert w. induction entries as [|[k r] rest IH]; intros w HI Hent; [done|].
  simpl. destruct (Hent k r) as (j & Hj & Hid); [left|]. rewrite Hj.
  destruct (expired now j) eqn:Hexp.
  - apply IH.
    + eapply Inv_evict; try done. by eapply expired_terminal.
    + intros k' r' Hin.
      destruct (evict_frame "sweep cleanup error" k r denied w) as (-> & _).
      apply Hent. by right.
  - apply IH; [done|]. intros k' r' Hin. apply Hent. by right.
Qed.

Lemma Inv_sweep u en now denied w : Inv u en w → Inv u en (sweep now denied w).
Proof.
  intros HI. apply Inv_sweep_loop; [done|]. intros k r Hin.
  destruct (inv_store _ _ _ HI k r Hin) as (j & ? & ? & _). eauto.
Qed.

Lemma Inv_upload u en w file uuid now :
  Inv u en w → uuid ∉ u →
  Inv (uuid :: u) en (uploadRoute (Some file) uuid now w).1.
Proof.
  intros HI Hfresh. pose proof HI as [].
  set (job := mkJob uuid queued 0 file (output_path uuid) now None None None None).
  assert (∀ r j, (heap w ++ [job]) !! r = Some j →
            (heap w !! r = Some j) ∨ (r = length (heap w) ∧ j = job)) as Hlook.
  { intros r j [[_ ?]|[? ?]]%lookup_snoc_Some; [by left|]. by right. }
  assert (∀ r j, heap w !! r = Some j → id j ≠ uuid) as Hold.
  { intros r j Hj Heq. apply Hfresh. rewrite <- Heq. eauto. }
  assert (heap w !! length (heap w) = None) as Hnew by by apply lookup_ge_None.
  constructor; simpl; fold job.
  - intros k r [[= -> ->]|Hin]%store_set_elem.
    + exists job. split; [by apply list_lookup_middle|]. done.
    + destruct (inv_store0 k r Hin) as (j & Hj & ? & ?). exists j.
      split; [by apply lookup_app_l_Some|]. done.
  - intros r j [Hj|[-> ->]]%Hlook; [right; eauto|left].
  - intros r1 r2 j1 j2 [H1|[-> ->]]%Hlook [H2|[-> ->]]%Hlook Heq; simpl in *; try done.
    + eauto.
    + by apply Hold in H1.
    + symmetry in Heq. by apply Hold in H2.
  - intros k r j [Hk| ->%list_elem_of_singleton]%elem_of_app Hget Hj.
    + assert (k ≠ uuid) as Hne by (intros ->; by apply Hfresh, inv_ticks_used0).
      rewrite store_get_set_ne in Hget by done.
      apply Hlook in Hj as [Hj|[-> ->]]; [eauto|done].
    + rewrite store_get_set_eq in Hget. injection Hget as <-.
      apply Hlook in Hj as [Hj|[_ ->]]; [congruence|done].
  - apply NoDup_app. split; [done|]. split; [|apply NoDup_singleton].
    intros k Hk ->%list_elem_of_singleton. by apply Hfresh, inv_ticks_used0.
  - intros k [Hk| ->%list_elem_of_singleton]%elem_of_app; [right; auto|left].
  - intros run Hrun. destruct (inv_runs0 run Hrun) as (j & Hj & ?).
    exists j. split; [by apply lookup_app_l_Some|done].
  - intros r j [Hj|[-> ->]]%Hlook Hst; [|done].
    rewrite store_get_set_ne; [eauto|]. intros Heq. symmetry in Heq. by apply Hold in Hj.
  - intros t Ht. destruct (inv_timers0 t Ht) as (j & Hj & ?).
    exists j. split; [by apply lookup_app_l_Some|done].
  - intros r j [Hj|[-> ->]]%Hlook Hst; [eauto|done].
  - intros r j [Hj|[-> ->]]%Hlook; [eauto|]. simpl. split; [done|]. by intros [? ?].
Qed.

Lemma write_job_compose r (f g : Job → Job) w :
  write_job r g (write_job r f w) = write_job r (g ∘ f) w.
Proof. unfold write_job. simpl. by rewrite list_alter_alter_eq. Qed.

Lemma Inv_write_same u en w r (f : Job → Job) :
  Inv u en w →
  (∀ j, id (f j) = id j ∧ outputPath (f j) = outputPath j ∧ status (f j) = status j
        ∧ expiresAt (f j) = expiresAt j ∧ jobError (f j) = jobError j) →
  Inv u en (write_job r f w).
Proof.
  intros HI Hf. destruct (heap w !! r) as [j|] eqn:Hj.
  - destruct (Hf j) as (Hid & Hout & Hst & Hexp & Herr).
    eapply Inv_write; try done.
    + intros k Hk Hget. rewrite Hst. by eapply (inv_ticks _ _ _ HI).
    + intros run Hrun Hr. rewrite Hst.
      destruct (inv_runs _ _ _ HI run Hrun) as (j0 & Hj0 & _ & ? & ?).
      rewrite Hr in Hj0. by simplify_eq.
    + rewrite Hst. by apply (inv_live _ _ _ HI).
    + by rewrite Hst.
    + rewrite Hst, Hexp. by apply (inv_expiry _ _ _ HI r).
    + rewrite Hst, Herr. by apply (inv_error _ _ _ HI r).
  - eapply Inv_frame; try done. unfold write_job. simpl.
    apply list_eq. intros i. destruct (decide (r = i)) as [->|Hne].
    + by rewrite list_lookup_alter_eq, Hj.
    + by rewrite list_lookup_alter_ne.
Qed.

(** What a queued tick finds: the job it converts is still [queued]. *)
Lemma tick_target u en w k q r :
  Inv u en w → nextTicks w = k :: q → store_get (jobs w) k = Some r →
  ∃ j, heap w !! r = Some j ∧ id j = k ∧ status j = queued
       ∧ (∀ k', k' ∈ q → store_get (jobs w) k' ≠ Some r)
       ∧ (∀ run, run ∈ encoders w → run.2 ≠ r).
Proof.
  intros HI Hq Hget.
  destruct (inv_store _ _ _ HI k r (store_get_elem _ _ _ Hget)) as (j & Hj & Hid & _).
  assert (status j = queued) as Hst.
  { eapply (inv_ticks _ _ _ HI k); [rewrite Hq; left|done..]. }
  exists j. repeat split; try done.
  - intros k' Hk' Hget'.
    destruct (inv_store _ _ _ HI k' r (store_get_elem _ _ _ Hget')) as (j' & Hj' & Hid' & _).
    simplify_eq. pose proof (inv_ticks_nodup _ _ _ HI) as Hnd. rewrite Hq in Hnd.
    by apply NoDup_cons in Hnd as [? _].
  - intros run Hrun Hr.
    destruct (inv_runs _ _ _ HI run Hrun) as (j' & Hj' & _ & Hnq & _).
    rewrite Hr in Hj'. by simplify_eq.
Qed.

Lemma Inv_convertToMp3 u en w k q thrown now :
  Inv u en w → nextTicks w = k :: q →
  Inv u en (convertToMp3 k thrown now (with_nextTicks q w)).
Proof.
  intros HI Hq. pose proof (Inv_pop _ _ _ _ _ HI Hq) as HI0.
  unfold convertToMp3. simpl.
  destruct (store_get (jobs w) k) as [r|] eqn:Hget; [|done].
  destruct (tick_target _ _ _ _ _ _ HI Hq Hget) as (j & Hj & Hid & Hst & Hticks & Hruns).
  pose proof (inv_expiry _ _ _ HI r j Hj) as Hexp. rewrite Hst in Hexp.
  pose proof (inv_error _ _ _ HI r j Hj) as Herr. rewrite Hst in Herr.
  assert (¬ is_Some (jobError j)) as Hnoerr by (intros Hs; by apply Herr in Hs).
  destruct thrown as [err|].
  - rewrite write_job_compose. apply Inv_scheduleCleanup.
    + eapply Inv_write; try done; simpl.
      * intros k' Hk' Hget'. by destruct (Hticks k' Hk' Hget').
      * intros run Hrun Hr. by destruct (Hruns run Hrun Hr).
    + simpl. intros r' j' Hget' Hj'. rewrite Hget in Hget'. injection Hget' as <-.
      rewrite list_lookup_alter_eq, Hj in Hj'. simpl in Hj'. by simplify_eq.
  - eapply (Inv_add_run _ _ (write_job r (set_status processing) (with_nextTicks q w))).
    + eapply Inv_write; try done; simpl.
      * intros k' Hk' Hget'. by destruct (Hticks k' Hk' Hget').
      * intros _. by rewrite Hid.
      * by rewrite Hst.
    + by apply write_job_lookup.
    + done.
    + done.
Qed.

(** What an event of a command that has not ended finds: its job is
    [processing], and in the store under the id the handlers captured. *)
Lemma run_target u en w run :
  Inv u en w → run ∈ encoders w → run ∉ en →
  ∃ j, heap w !! run.2 = Some j ∧ id j = run.1 ∧ status j = processing
       ∧ store_get (jobs w) run.1 = Some run.2
       ∧ expiresAt j = None ∧ jobError j = None
       ∧ (∀ k, k ∈ nextTicks w → store_get (jobs w) k ≠ Some run.2)
       ∧ (∀ run', run' ∈ encoders w → run'.2 = run.2 → run' = run).
Proof.
  intros HI Hrun Hen.
  destruct (inv_runs _ _ _ HI run Hrun) as (j & Hj & Hid & _ & Hp).
  specialize (Hp Hen). exists j.
  pose proof (inv_error _ _ _ HI _ j Hj) as Herr.
  repeat split; try done.
  - rewrite <- Hid. by apply (inv_live _ _ _ HI).
  - apply (inv_expiry _ _ _ HI _ j Hj). by rewrite Hp.
  - destruct (jobError j) eqn:He; [|done].
    assert (status j = error) by (apply Herr; eauto). congruence.
  - intros k Hk Hget. pose proof (inv_ticks _ _ _ HI k _ j Hk Hget Hj). congruence.
  - intros run' Hrun' Hr.
    destruct (inv_runs _ _ _ HI run' Hrun') as (j' & Hj' & Hid' & _).
    rewrite Hr in Hj'. simplify_eq. destruct run, run'. simpl in *. congruence.
Qed.

Lemma Inv_final u en w run (f : Job → Job) delay now :
  Inv u en w → run ∈ encoders w → run ∉ en →
  (∀ j, jobError j = None →
        id (f j) = id j ∧ outputPath (f j) = outputPath j
        ∧ is_terminal (status (f j)) = true
        ∧ (status (f j) = error ↔ is_Some (jobError (f j)))) →
  Inv u (run :: en) (scheduleCleanup run.1 delay now (write_job run.2 f w)).
Proof.
  intros HI Hrun Hen Hf.
  destruct (run_target _ _ _ _ HI Hrun Hen)
    as (j & Hj & Hid & Hst & Hget & _ & Hnoerr & Hticks & Hruns).
  destruct (Hf j Hnoerr) as (Hfid & Hfout & Hft & Hferr).
  apply Inv_scheduleCleanup.
  - eapply Inv_write; try done.
    + eapply Inv_ended; [done|]. intros run0 ?. by right.
    + intros k Hk Hget'. by destruct (Hticks k Hk Hget').
    + intros run' Hrun' Hr. rewrite (Hruns run' Hrun' Hr). split.
      * intros Hq. by rewrite Hq in Hft.
      * intros Hn. destruct Hn. left.
    + intros Hp. by rewrite Hp in Hft.
    + intros Hn. by rewrite Hn in Hft.
  - simpl. intros r' j' Hget' Hj'. rewrite Hget in Hget'. injection Hget' as <-.
    rewrite list_lookup_alter_eq, Hj in Hj'. simpl in Hj'. by simplify_eq.
Qed.

Lemma Inv_log u en w line : Inv u en w → Inv u en (log line w).
Proof. intros HI. by eapply Inv_frame. Qed.

Lemma allowed_upload u en file uuid now :
  allowed u en (Upload (Some file) uuid now) = true → uuid ∉ u.
Proof. unfold allowed. simpl. rewrite andb_true_r. apply bool_decide_eq_true. Qed.

Lemma allowed_run u en e run :
  allowed u en e = true → enc_run e = Some run → run ∉ en.
Proof.
  unfold allowed. intros [_ H]%andb_true_iff Hr. rewrite Hr in H.
  by apply bool_decide_eq_true in H.
Qed.

Lemma Inv_step u en w e :
  Inv u en w → allowed u en e = true →
  Inv (next_used u e) (next_ended en e) (step w e).
Proof.
  intros HI Hok.
  destruct e as [[file|] uuid now|thrown now|run p|run t1 t2|run err t1 t2
                |h denied|now denied|p]; unfold next_used, next_ended; simpl.
  - apply Inv_upload; [done|]. by eapply allowed_upload.
  - done.
  - destruct (nextTicks w) as [|k q] eqn:Hq; [done|]. by apply Inv_convertToMp3.
  - case_bool_decide; [|done]. by apply Inv_write_same.
  - case_bool_decide as Hrun; [|by eapply Inv_ended; [|intros ? ?; right]].
    unfold onEnd. apply Inv_log.
    apply Inv_final; [done|done|by eapply allowed_run|]. simpl.
    intros j ->. repeat split; try done.
  - case_bool_decide as Hrun; [|by eapply Inv_ended; [|intros ? ?; right]].
    unfold onError. apply Inv_log.
    apply Inv_final; [done|done|by eapply allowed_run|]. simpl.
    intros j _. repeat split; try done.
  - destruct (list_find _ _) as [[i t]|] eqn:Hfind; [|done].
    apply list_find_Some in Hfind as (Hi & _ & _).
    destruct (inv_timers _ _ _ HI t) as (j & Hj & Hid & Ht);
      [by eapply list_elem_of_lookup_2|].
    unfold cleanupCallback. eapply Inv_evict; try done.
    eapply (Inv_frame _ _ w); try done. simpl. intros t' Ht'.
    by apply list_elem_of_filter in Ht' as [_ ?].
  - by apply Inv_sweep.
  - by eapply (Inv_frame _ _ w).
Qed.

Lemma Inv_initial : Inv [] [] initial.
Proof.
  constructor; simpl; try done;
    first [ apply store_wf_initial | apply NoDup_nil_2
          | intros ? H; by apply elem_of_nil in H ].
Qed.

(** The invariant holds after every prefix of an accepted sequence. *)
Lemma Inv_exec_prefix pre post u en w :
  Inv u en w → env_ok_from u en (pre ++ post) = true →
  ∃ u' en', Inv u' en' (exec w pre) ∧ env_ok_from u' en' post = true.
Proof.
  revert u en w. induction pre as [|e pre IH]; intros u en w HI Hok; simpl in *.
  - eauto.
  - apply andb_true_iff in Hok as [Hok1 Hok2].
    eapply IH; [|done]. by apply Inv_step.
Qed.

Lemma Inv_reachable tr :
  env_ok tr = true → ∃ u en, Inv u en (exec initial tr).
Proof.
  intros Hok. destruct (Inv_exec_prefix tr [] [] [] initial) as (u & en & HI & _).
  - apply Inv_initial.
  - by rewrite app_nil_r.
  - eauto.
Qed.

(** ** The lifecycle *)

Lemma forward_refl s : forward s s = true.
Proof. by destruct s. Qed.

Lemma forward_terminal s s' : forward s s' = true → is_terminal s = true → s' = s.
Proof. by destruct s, s'. Qed.

Lemma write_job_cases r0 (f : Job → Job) w r j :
  heap w !! r = Some j →
  ∃ j', heap (write_job r0 f w) !! r = Some j'
        ∧ ((r = r0 ∧ j' = f j) ∨ (r ≠ r0 ∧ j' = j)).
Proof.
  intros Hj. destruct (decide (r = r0)) as [->|Hne].
  - exists (f j). split; [by apply write_job_lookup|]. by left.
  - exists j. simpl. rewrite list_lookup_alter_ne by done. split; [done|]. by right.
Qed.

Lemma scheduleCleanup_status k delay now w r j :
  heap w !! r = Some j →
  ∃ j', heap (scheduleCleanup k delay now w) !! r = Some j' ∧ status j' = status j.
Proof.
  intros Hj. unfold scheduleCleanup. destruct (store_get (jobs w) k) as [r0|]; [|eauto].
  destruct (write_job_cases r0 (set_expiry (now + delay) (timerSeq w)) w r j Hj)
    as (j' & Hj' & [[_ ->]|[_ ->]]); eauto.
Qed.

Lemma forward_step u en w e r j :
  Inv u en w → allowed u en e = true →
  heap w !! r = Some j →
  ∃ j', heap (step w e) !! r = Some j' ∧ forward (status j) (status j') = true.
Proof.
  intros HI Hok Hj.
  assert (∃ j', heap w !! r = Some j' ∧ forward (status j) (status j') = true) as Hsame
    by (exists j; split; [done|apply forward_refl]).
  destruct e as [[file|] uuid now|thrown now|run p|run t1 t2|run err t1 t2
                |h denied|now denied|p]; simpl; try done.
  - exists j. split; [by apply lookup_app_l_Some|apply forward_refl].
  - destruct (nextTicks w) as [|k q] eqn:Hq; [done|]. unfold convertToMp3. simpl.
    destruct (store_get (jobs w) k) as [r0|] eqn:Hget; [|done].
    destruct (tick_target _ _ _ _ _ _ HI Hq Hget) as (j0 & Hj0 & _ & Hst0 & _).
    destruct thrown as [err|].
    + rewrite write_job_compose.
      destruct (write_job_cases r0
                  ((λ j, set_error (message err) (set_status error j)) ∘ set_status processing)
                  (with_nextTicks q w) r j Hj) as (j1 & Hj1 & Hcase).
      destruct (scheduleCleanup_status k TTL_MS now _ r j1 Hj1) as (j' & Hj' & Hst').
      exists j'. split; [done|]. rewrite Hst'.
      destruct Hcase as [[-> ->]|[_ ->]]; [|apply forward_refl].
      simplify_eq. by rewrite Hst0.
    + destruct (write_job_cases r0 (set_status processing) (with_nextTicks q w) r j Hj)
        as (j' & Hj' & Hcase).
      exists j'. split; [done|].
      destruct Hcase as [[-> ->]|[_ ->]]; [|apply forward_refl].
      simplify_eq. by rewrite Hst0.
  - case_bool_decide; [|done]. unfold onProgress.
    destruct (write_job_cases run.2 (set_progress (Math_round (or_zero p))) w r j Hj)
      as (j' & Hj' & [[_ Heq]|[_ Heq]]); exists j'; rewrite Heq;
      (split; [by rewrite <- Heq|apply forward_refl]).
  - case_bool_decide as Hrun; [|done].
    destruct (run_target _ _ _ _ HI Hrun (allowed_run _ _ _ _ Hok eq_refl))
      as (j0 & Hj0 & _ & Hst0 & _).
    unfold onEnd. simpl.
    destruct (write_job_cases run.2
                (λ j, set_finishedAt t1 (set_progress 100 (set_status done j))) w r j Hj)
      as (j1 & Hj1 & Hcase).
    destruct (scheduleCleanup_status run.1 TTL_MS t2 _ r j1 Hj1) as (j' & Hj' & Hst').
    exists j'. split; [done|]. rewrite Hst'.
    destruct Hcase as [[-> ->]|[_ ->]]; [|apply forward_refl].
    simplify_eq. by rewrite Hst0.
  - case_bool_decide as Hrun; [|done].
    destruct (run_target _ _ _ _ HI Hrun (allowed_run _ _ _ _ Hok eq_refl))
      as (j0 & Hj0 & _ & Hst0 & _).
    unfold onError. simpl.
    destruct (write_job_cases run.2
                (λ j, set_finishedAt t1
                        (set_error (message_or_string err) (set_status error j))) w r j Hj)
      as (j1 & Hj1 & Hcase).
    destruct (scheduleCleanup_status run.1 TTL_MS t2 _ r j1 Hj1) as (j' & Hj' & Hst').
    exists j'. split; [done|]. rewrite Hst'.
    destruct Hcase as [[-> ->]|[_ ->]]; [|apply forward_refl].
    simplify_eq. by rewrite Hst0.
  - destruct (list_find _ _) as [[i t]|]; [|done].
    destruct (cleanupCallback_frame t denied
                (with_timers (filter (λ t', handle t' ≠ h) (timers w)) (timerSeq w) w))
      as (_ & -> & _). done.
  - destruct (sweep_loop_frame (jobs w) now denied w) as (Hh & _). unfold sweep.
    by rewrite Hh.
Qed.

Lemma exec_snoc w tr e : exec w (tr ++ [e]) = step (exec w tr) e.
Proof. unfold exec. by rewrite foldl_app. Qed.

(** C1. Along every sequence of events in which [uuidv4] hands out fresh
    ids and each ffmpeg command emits nothing after its final event, each
    step leaves every job object (in the store or evicted from it) either
    in the status it had or in a later one of
    [queued], [processing], then [done] or [error]: in particular no step
    changes the status of a job that is [done] or [error]. *)
Theorem status_moves_forward_only (pre : list Event) (e : Event) (r : nat) (j : Job) :
  env_ok (pre ++ [e]) = true →
  heap (exec initial pre) !! r = Some j →
  ∃ j', heap (exec initial (pre ++ [e])) !! r = Some j'
        ∧ forward (status j) (status j') = true
        ∧ (is_terminal (status j) = true → status j' = status j).
Proof.
  intros Hok Hj.
  destruct (Inv_exec_prefix pre [e] [] [] initial Inv_initial Hok) as (u & en & HI & Hok').
  simpl in Hok'. rewrite andb_true_r in Hok'.
  destruct (forward_step _ _ _ _ _ _ HI Hok' Hj) as (j' & Hj' & Hfw).
  exists j'. rewrite exec_snoc. split; [done|]. split; [done|].
  by apply forward_terminal.
Qed.

Lemma onEnd_effect w run t1 t2 j :
  heap w !! run.2 = Some j →
  store_get (jobs w) run.1 = Some run.2 →
  heap (onEnd run t1 t2 w) !! run.2
  = Some (set_expiry (t2 + TTL_MS) (timerSeq w)
            (set_finishedAt t1 (set_progress 100 (set_status done j))))
  ∧ timers (onEnd run t1 t2 w) = timers w ++ [mkTimer (timerSeq w) run.1 run.2]
  ∧ jobs (onEnd run t1 t2 w) = jobs w.
Proof.
  intros Hj Hget. unfold onEnd, scheduleCleanup. simpl. rewrite Hget. simpl.
  split; [|done]. by rewrite list_lookup_alter_eq, list_lookup_alter_eq, Hj.
Qed.

(** The [catch] block of [convertToMp3], for any job in the store: the
    status, the message and the expiry are written, [finishedAt] keeps
    the value it had. *)
Lemma convertToMp3_thrown_effect w jobId r j err now :
  store_get (jobs w) jobId = Some r →
  heap w !! r = Some j →
  ∃ j', heap (convertToMp3 jobId (Some err) now w) !! r = Some j'
        ∧ status j' = error
        ∧ jobError j' = Some (message err)
        ∧ expiresAt j' = Some (now + TTL_MS)
        ∧ finishedAt j' = finishedAt j.
Proof.
  intros Hget Hj. unfold convertToMp3, scheduleCleanup. rewrite Hget. simpl.
  rewrite Hget. simpl. rewrite !list_lookup_alter_eq, Hj. simpl. eauto 10.
Qed.

(** C3. In every state the server can reach, when the ['end'] event of a
    command arrives for a job that is [processing], the job becomes
    [done] with progress 100, [finishedAt] is the clock read by the
    handler, [expiresAt] is the clock read by [scheduleCleanup] plus the
    TTL, and a cleanup timer for the job's id is pending whose handle is
    kept in [cleanupTimer]; the job is still in the store. *)
Theorem success_event_completes_and_arms_eviction (tr : list Event) (run : string * nat)
    (j : Job) (tFinished tArmed : Z) :
  env_ok (tr ++ [EncEnd run tFinished tArmed]) = true →
  let w := exec initial tr in
  run ∈ encoders w →
  heap w !! run.2 = Some j →
  status j = processing →
  let w' := step w (EncEnd run tFinished tArmed) in
  ∃ j', heap w' !! run.2 = Some j'
        ∧ jobs_get w' run.1 = Some j'
        ∧ status j' = done
        ∧ progress j' = 100
        ∧ finishedAt j' = Some tFinished
        ∧ expiresAt j' = Some (tArmed + TTL_MS)
        ∧ cleanupTimer j' = Some (timerSeq w)
        ∧ timers w' = timers w ++ [mkTimer (timerSeq w) run.1 run.2].
Proof.
  intros Hok w Hrun Hj Hst w'.
  destruct (Inv_exec_prefix tr [EncEnd run tFinished tArmed] [] [] initial Inv_initial Hok)
    as (u & en & HI & Hok').
  simpl in Hok'. rewrite andb_true_r in Hok'. fold w in HI.
  destruct (run_target _ _ _ _ HI Hrun (allowed_run _ _ _ _ Hok' eq_refl))
    as (j0 & Hj0 & _ & _ & Hget & _).
  destruct (onEnd_effect w run tFinished tArmed j Hj Hget) as (Hh & Ht & Hjobs).
  subst w'. simpl. rewrite (bool_decide_true _ Hrun).
  eexists. split; [exact Hh|]. split.
  - unfold jobs_get. rewrite Hjobs, Hget. simpl. exact Hh.
  - by repeat split.
Qed.

(** C6. In every state the server can reach, the status route answers a
    request for an id in the store with a payload that carries a download
    reference exactly when the job is [done] and an error message exactly
    when the job is [error]; for an id that is not in the store it
    answers 404. *)
Theorem status_payload_fields (tr : list Event) (k : string) :
  env_ok tr = true →
  let w := exec initial tr in
  (jobs_get w k = None → statusRoute w k = safeSendJSON 404 (ErrorJson "Job not found"))
  ∧ (∀ job, jobs_get w k = Some job →
       ∃ dl er,
         statusRoute w k = safeSendJSON 200 (StatusJson k (status job) (progress job) dl er)
         ∧ (is_Some dl ↔ status job = done)
         ∧ (is_Some er ↔ status job = error)).
Proof.
  intros Hok w. destruct (Inv_reachable tr Hok) as (u & en & HI). fold w in HI.
  unfold statusRoute. split; [by intros ->|].
  intros job Hjob. rewrite Hjob.
  destruct (store_wf_get _ _ _ (inv_store _ _ _ HI) Hjob) as [Hid _].
  unfold jobs_get in Hjob. destruct (store_get (jobs w) k) as [r|]; [|done]. simpl in Hjob.
  pose proof (inv_error _ _ _ HI r job Hjob) as Herr.
  eexists _, _. split; [|split].
  - rewrite Hid. f_equal. f_equal. by destruct (decide (progress job = 0)) as [->|].
  - destruct (decide (status job = done)); split; try done.
  - by symmetry.
Qed.

(** ** Further properties of the store and the sweep *)

(** X1. An id that no upload registered is unknown to both routes after
    any sequence of events; an upload request without a file registers
    nothing. *)
Theorem unknown_id_is_not_found (tr : list Event) (k : string) :
  k ∉ uploads tr →
  statusRoute (exec initial tr) k = safeSendJSON 404 (ErrorJson "Job not found")
  ∧ downloadRoute (exec initial tr) k = safeSendJSON 404 (ErrorJson "Job not found").
Proof. intros Hk. apply not_found_routes. by apply exec_jobs_absent. Qed.

Lemma exec_keeps tr w : keeps (heap w) (heap (exec w tr)).
Proof.
  revert w. induction tr as [|e tr IH]; intros w; [apply keeps_refl|].
  simpl. eapply keeps_trans; [apply step_keeps|apply IH].
Qed.

(** X2. No callback reassigns the id, the input path or the output path
    of a job, and a job object outlives its store entry: whatever events
    follow, the object is still there with the three fields it was
    created with. *)
Theorem job_identity_is_never_reassigned (w : World) (tr : list Event) (r : nat) (j : Job) :
  heap w !! r = Some j →
  ∃ j', heap (exec w tr) !! r = Some j'
        ∧ id j' = id j ∧ inputPath j' = inputPath j ∧ outputPath j' = outputPath j.
Proof. apply exec_keeps. Qed.

(** The keys of the store are pairwise distinct, as in a [Map]. *)

Lemma store_set_keys_sub (m : Store) k v k' :
  k' ∈ (store_set m k v).*1 → k' = k ∨ k' ∈ m.*1.
Proof.
  intros ([k0 r0] & -> & Hin)%list_elem_of_fmap.
  apply store_set_elem in Hin as [[= -> ->]|Hin]; [by left|right].
  apply list_elem_of_fmap. by exists (k0, r0).
Qed.

Lemma store_set_keys_nodup (m : Store) k v : NoDup m.*1 → NoDup (store_set m k v).*1.
Proof.
  induction m as [|[k0 v0] m IH].
  - intros _. simpl. apply NoDup_singleton.
  - rewrite fmap_cons. intros [Hk0 Hnd]%NoDup_cons. simpl.
    destruct (decide (k0 = k)) as [->|Hne]; rewrite fmap_cons; apply NoDup_cons.
    + done.
    + split; [|auto]. intros [?|?]%store_set_keys_sub; done.
Qed.

Lemma store_delete_keys_sub (m : Store) k k' : k' ∈ (store_delete m k).*1 → k' ∈ m.*1.
Proof.
  intros ([k0 r0] & -> & Hin)%list_elem_of_fmap. apply store_delete_elem in Hin.
  apply list_elem_of_fmap. by exists (k0, r0).
Qed.

Lemma store_delete_keys_nodup (m : Store) k : NoDup m.*1 → NoDup (store_delete m k).*1.
Proof.
  induction m as [|[k' v'] m IH]; [done|].
  rewrite fmap_cons. intros [Hk' Hnd]%NoDup_cons. simpl.
  destruct (decide (k' = k)); [auto|].
  rewrite fmap_cons. apply NoDup_cons. split; [|auto].
  intros Hin. by apply store_delete_keys_sub in Hin.
Qed.

Lemma store_delete_not_elem (m : Store) k r : (k, r) ∉ store_delete m k.
Proof.
  induction m as [|[k' v'] m IH]; simpl; [apply not_elem_of_nil|].
  destruct (decide (k' = k)); [done|].
  intros [[= ? ?]|?]%elem_of_cons; [congruence|done].
Qed.

Lemma store_get_of_elem (m : Store) k r : NoDup m.*1 → (k, r) ∈ m → store_get m k = Some r.
Proof.
  induction m as [|[k' v'] m IH].
  - intros _ H. by apply elem_of_nil in H.
  - rewrite fmap_cons. intros [Hk' Hnd]%NoDup_cons [[= -> ->]|Hin]%elem_of_cons; simpl.
    + by rewrite decide_True.
    + rewrite decide_False; [auto|]. intros ->. apply Hk'.
      apply list_elem_of_fmap. by exists (k, r).
Qed.

Lemma sweep_loop_keys_nodup entries now denied w :
  NoDup (jobs w).*1 → NoDup (jobs (sweep_loop entries now denied w)).*1.
Proof.
  revert w. induction entries as [|[k r] rest IH]; intros w Hnd; simpl; [done|].
  apply IH. destruct (heap w !! r) as [job|]; [destruct (expired now job)|]; try done.
  destruct (evict_frame "sweep cleanup error" k r denied w) as (_ & -> & _).
  by apply store_delete_keys_nodup.
Qed.

Lemma step_keys_nodup w e : NoDup (jobs w).*1 → NoDup (jobs (step w e)).*1.
Proof.
  intros Hnd.
  destruct e as [[file|] uuid now|thrown now|run p|run t1 t2|run err t1 t2
                |h denied|now denied|p]; simpl; try done.
  - by apply store_set_keys_nodup.
  - destruct (nextTicks w); [done|]. by rewrite convertToMp3_jobs.
  - by case_bool_decide.
  - case_bool_decide; [|done]. unfold onEnd. simpl. by rewrite scheduleCleanup_jobs.
  - case_bool_decide; [|done]. unfold onError. simpl. by rewrite scheduleCleanup_jobs.
  - destruct (list_find _ _) as [[i t]|]; [|done].
    destruct (cleanupCallback_frame t denied
                (with_timers (filter (λ t', handle t' ≠ h) (timers w)) (timerSeq w) w))
      as (-> & _). by apply store_delete_keys_nodup.
  - by apply sweep_loop_keys_nodup.
Qed.

Lemma exec_keys_nodup tr w : NoDup (jobs w).*1 → NoDup (jobs (exec w tr)).*1.
Proof.
  revert w. induction tr as [|e tr IH]; intros w Hnd; [done|].
  simpl. apply IH. by apply step_keys_nodup.
Qed.

Lemma reachable_keys_nodup tr : NoDup (jobs (exec initial tr)).*1.
Proof. apply exec_keys_nodup. simpl. apply NoDup_nil_2. Qed.

(** The sweep leaves the entry of [k] alone when every entry it visits
    under that key is not expired. *)
Lemma sweep_loop_retains entries now denied w k :
  (∀ r j, (k, r) ∈ entries → heap w !! r = Some j → expired now j = false) →
  store_get (jobs (sweep_loop entries now denied w)) k = store_get (jobs w) k.
Proof.
  revert w. induction entries as [|[k0 r0] rest IH]; intros w Hun; simpl; [done|].
  destruct (heap w !! r0) as [j0|] eqn:Hj0; [destruct (expired now j0) eqn:Hexp|].
  - destruct (evict_frame "sweep cleanup error" k0 r0 denied w) as (Hh & Hjobs & _).
    rewrite IH.
    + rewrite Hjobs. apply store_get_delete_ne. intros ->.
      rewrite (Hun r0 j0) in Hexp; [done|left|done].
    + intros r j Hin. rewrite Hh. apply Hun. by right.
  - apply IH. intros r j Hin. apply Hun. by right.
  - apply IH. intros r j Hin. apply Hun. by right.
Qed.

Lemma sweep_get_None_iff now denied w k r j :
  NoDup (jobs w).*1 →
  store_get (jobs w) k = Some r →
  heap w !! r = Some j →
  (expired now j = false → store_get (jobs (sweep now denied w)) k = Some r)
  ∧ (store_get (jobs (sweep now denied w)) k = None ↔ expired now j = true).
Proof.
  intros Hnd Hget Hj.
  assert (expired now j = false →
          store_get (jobs (sweep now denied w)) k = Some r) as Hkeep.
  { intros Hexp. unfold sweep. rewrite sweep_loop_retains; [done|].
    intros r' j' Hin Hj'.
    assert (r' = r) as ->.
    { apply (store_get_of_elem _ _ _ Hnd) in Hin. congruence. }
    by simplify_eq. }
  split; [done|]. split.
  - intros Hnone. destruct (expired now j) eqn:Hexp; [done|].
    rewrite Hkeep in Hnone; done.
  - intros Hexp. by eapply sweep_evicts.
Qed.

(** X3. The sweep removes from the store exactly the jobs whose expiry
    has passed: in any state the server can be in, a job in the store is
    gone after a sweep at [now] if and only if its [expiresAt] is set,
    non-zero and at most [now]. The sweep changes no job object, and
    cancels no timer. *)
Theorem sweep_evicts_exactly_the_expired (tr : list Event) (now : Z) (denied : list string)
    (k : string) (r : nat) (j : Job) :
  let w := exec initial tr in
  store_get (jobs w) k = Some r →
  heap w !! r = Some j →
  (store_get (jobs (step w (Sweep now denied))) k = None ↔ expired now j = true)
  ∧ (expired now j = false → jobs_get (step w (Sweep now denied)) k = Some j)
  ∧ heap (step w (Sweep now denied)) = heap w
  ∧ timers (step w (Sweep now denied)) = timers w.
Proof.
  intros w Hget Hj. change (step w (Sweep now denied)) with (sweep now denied w).
  destruct (sweep_loop_frame (jobs w) now denied w) as (Hh & _ & _ & Ht & _).
  destruct (sweep_get_None_iff now denied w k r j (reachable_keys_nodup tr) Hget Hj)
    as [Hkeep Hiff].
  split; [done|]. split; [|done].
  intros Hexp. unfold jobs_get. rewrite (Hkeep Hexp). simpl.
  unfold sweep. by rewrite Hh.
Qed.

Lemma expired_mono now now' j : now' <= now → expired now' j = true → expired now j = true.
Proof.
  unfold expired. destruct (expiresAt j) as [t|]; [|done].
  intros Hle [Hnz Ht]%andb_true_iff. apply andb_true_iff. split; [done|].
  apply Z.leb_le. apply Z.leb_le in Ht. lia.
Qed.

Lemma sweep_loop_nothing_expired entries now denied w :
  (∀ k r j, (k, r) ∈ entries → heap w !! r = Some j → expired now j = false) →
  sweep_loop entries now denied w = w.
Proof.
  induction entries as [|[k r] rest IH]; intros Hun; simpl; [done|].
  destruct (heap w !! r) as [j|] eqn:Hj.
  - rewrite (Hun k r j); [|left|done]. apply IH. intros k' r' j' Hin. apply (Hun k'). by right.
  - apply IH. intros k' r' j' Hin. apply (Hun k'). by right.
Qed.

Lemma sweep_loop_survivors entries now denied w k r j :
  (k, r) ∈ jobs (sweep_loop entries now denied w) →
  (k, r) ∈ entries →
  heap w !! r = Some j →
  expired now j = false.
Proof.
  revert w. induction entries as [|[k0 r0] rest IH]; intros w Hin Hent Hj.
  - by apply elem_of_nil in Hent.
  - simpl in Hin. apply elem_of_cons in Hent as [[= -> ->]|Hent].
    + rewrite Hj in Hin. destruct (expired now j) eqn:Hexp; [|done].
      apply sweep_loop_jobs_sub in Hin.
      destruct (evict_frame "sweep cleanup error" k0 r0 denied w) as (_ & Hjobs & _).
      rewrite Hjobs in Hin. by apply store_delete_not_elem in Hin.
    + eapply IH; [exact Hin|done|].
      destruct (heap w !! r0) as [j0|]; [destruct (expired now j0)|]; try done.
      by destruct (evict_frame "sweep cleanup error" k0 r0 denied w) as (-> & _).
Qed.

(** X4. Sweeping again changes nothing: after a sweep at [now], a second
    sweep at the same or an earlier clock reading evicts no job, unlinks
    no file and logs nothing, whatever state the first sweep started
    from and whichever deletions failed. *)
Theorem sweep_is_idempotent (w : World) (now now' : Z) (denied denied' : list string) :
  now' <= now →
  step (step w (Sweep now denied)) (Sweep now' denied') = step w (Sweep now denied).
Proof.
  intros Hle. change (sweep now' denied' (sweep now denied w) = sweep now denied w).
  unfold sweep at 1. apply sweep_loop_nothing_expired.
  intros k r j Hin Hj. destruct (expired now' j) eqn:Hexp; [|done].
  apply (expired_mono now) in Hexp; [|done].
  assert (heap (sweep now denied w) = heap w) as Hh by apply sweep_loop_frame.
  rewrite Hh in Hj.
  rewrite (sweep_loop_survivors (jobs w) now denied w k r j) in Hexp; try done.
  by apply sweep_loop_jobs_sub in Hin.
Qed.

(** ** What eviction does to the disk *)

Lemma shrinks_sub d d' p : shrinks d d' → p ∈ files d' → p ∈ files d.
Proof. intros (l & _ & _ & Hf & _). rewrite Hf. set_solver. Qed.

Lemma removeFiles_other denied j q d :
  q ≠ inputPath j → q ≠ outputPath j → q ∈ files d → q ∈ files (removeFiles denied j d).2.
Proof.
  intros Hin Hout Hq. unfold removeFiles.
  pose proof (removeIfPresent_other denied (inputPath j) q d Hin Hq) as H1.
  destruct (removeIfPresent denied (inputPath j) d) as [[|e] d1]; simpl in *; [|done].
  by apply removeIfPresent_other.
Qed.

Lemma evict_disk label k r denied w j :
  heap w !! r = Some j →
  disk (evict label k r denied w) = (removeFiles denied j (disk w)).2.
Proof.
  intros Hj. unfold evict. rewrite Hj.
  by destruct (removeFiles denied j (disk w)) as [[|e] d].
Qed.

Lemma sweep_loop_deleted entries now denied w q :
  q ∈ files (disk w) →
  q ∉ files (disk (sweep_loop entries now denied w)) →
  ∃ k r j, (k, r) ∈ entries ∧ heap w !! r = Some j ∧ expired now j = true
           ∧ (q = inputPath j ∨ q = outputPath j).
Proof.
  revert w. induction entries as [|[k r] rest IH]; intros w Hq Hgone; simpl in *; [done|].
  destruct (heap w !! r) as [j|] eqn:Hj; [destruct (expired now j) eqn:Hexp|].
  - destruct (decide (q ∈ files (disk (evict "sweep cleanup error" k r denied w))))
      as [Hstill|Hdel].
    + destruct (IH _ Hstill Hgone) as (k' & r' & j' & Hin & Hj' & ? & ?).
      exists k', r', j'. split; [by right|]. split; [|done].
      by destruct (evict_frame "sweep cleanup error" k r denied w) as (<- & _).
    + exists k, r, j. split; [left|]. split; [done|]. split; [done|].
      rewrite (evict_disk _ _ _ _ _ _ Hj) in Hdel.
      destruct (decide (q = inputPath j)) as [|Hi]; [by left|].
      destruct (decide (q = outputPath j)) as [|Ho]; [by right|].
      destruct Hdel. by apply removeFiles_other.
  - destruct (IH _ Hq Hgone) as (k' & r' & j' & Hin & ?).
    exists k', r', j'. split; [by right|done].
  - destruct (IH _ Hq Hgone) as (k' & r' & j' & Hin & ?).
    exists k', r', j'. split; [by right|done].
Qed.

Lemma scheduleCleanup_disk k delay now w : disk (scheduleCleanup k delay now w) = disk w.
Proof. unfold scheduleCleanup. by destruct (store_get (jobs w) k). Qed.

Lemma convertToMp3_disk k thrown now w : disk (convertToMp3 k thrown now w) = disk w.
Proof.
  unfold convertToMp3. destruct (store_get (jobs w) k); [|done].
  destruct thrown; [|done]. by rewrite scheduleCleanup_disk.
Qed.

Lemma step_disk_shrinks w e : (∀ p, e ≠ DiskWrite p) → shrinks (disk w) (disk (step w e)).
Proof.
  intros Hnw.
  destruct e as [[file|] uuid now|thrown now|run p|run t1 t2|run err t1 t2
                |h denied|now denied|p]; simpl; try apply shrinks_refl.
  - destruct (nextTicks w); [apply shrinks_refl|]. rewrite convertToMp3_disk.
    apply shrinks_refl.
  - case_bool_decide; apply shrinks_refl.
  - case_bool_decide; [|apply shrinks_refl]. unfold onEnd. simpl.
    rewrite scheduleCleanup_disk. apply shrinks_refl.
  - case_bool_decide; [|apply shrinks_refl]. unfold onError. simpl.
    rewrite scheduleCleanup_disk. apply shrinks_refl.
  - destruct (list_find _ _) as [[i t]|]; [|apply shrinks_refl].
    apply (cleanupCallback_frame t denied
             (with_timers (filter (λ t', handle t' ≠ h) (timers w)) (timerSeq w) w)).
  - apply sweep_loop_frame.
  - by destruct (Hnw p).
Qed.

(** X5. Eviction deletes only the files of the jobs it evicts. The
    cleanup timer of a job leaves every file on disk other than that
    job's input and output in place; a file that a sweep removes is the
    input or the output of a job that was in the store and expired; and
    no callback of the server creates a file. *)
Theorem eviction_deletes_only_the_jobs_files :
  (∀ w i t denied j q,
     list_find (λ t', handle t' = handle t) (timers w) = Some (i, t) →
     heap w !! timerJob t = Some j →
     q ∈ files (disk w) → q ≠ inputPath j → q ≠ outputPath j →
     q ∈ files (disk (step w (TimerFire (handle t) denied))))
  ∧ (∀ w now denied q,
       q ∈ files (disk w) →
       q ∉ files (disk (step w (Sweep now denied))) →
       ∃ k r j, (k, r) ∈ jobs w ∧ heap w !! r = Some j ∧ expired now j = true
                ∧ (q = inputPath j ∨ q = outputPath j))
  ∧ (∀ w e q,
       (∀ p, e ≠ DiskWrite p) →
       q ∈ files (disk (step w e)) → q ∈ files (disk w)).
Proof.
  split; [|split].
  - intros w i t denied j q Hfind Hj Hq Hi Ho.
    rewrite (timerFire_step _ _ _ _ Hfind). unfold cleanupCallback.
    rewrite (evict_disk _ _ _ _ _ j); [|done]. by apply removeFiles_other.
  - intros w now denied q. apply sweep_loop_deleted.
  - intros w e q Hnw. apply shrinks_sub. by apply step_disk_shrinks.
Qed.

Lemma removeIfPresent_gone denied p d :
  p ∉ denied →
  (removeIfPresent denied p d).1 = Returned
  ∧ (p ≠ "" → p ∉ files (removeIfPresent denied p d).2).
Proof.
  intros Hden. unfold removeIfPresent, truthy, unlinkSync, existsSync.
  destruct (decide (p = "")) as [->|Hne].
  - rewrite bool_decide_false by (intros H; by apply H). simpl. done.
  - rewrite (bool_decide_true _ Hne). simpl.
    destruct (decide (p ∈ files d)) as [Hin|Hin].
    + rewrite (bool_decide_true _ Hin), (bool_decide_false _ Hden). simpl.
      split; [done|]. set_solver.
    + rewrite (bool_decide_false _ Hin). done.
Qed.

Lemma removeFiles_gone denied j d :
  inputPath j ∉ denied → outputPath j ∉ denied →
  (removeFiles denied j d).1 = Returned
  ∧ (inputPath j ≠ "" → inputPath j ∉ files (removeFiles denied j d).2)
  ∧ (outputPath j ≠ "" → outputPath j ∉ files (removeFiles denied j d).2).
Proof.
  intros Hi Ho. unfold removeFiles.
  destruct (removeIfPresent_gone denied (inputPath j) d Hi) as [Hr1 Hg1].
  destruct (removeIfPresent denied (inputPath j) d) as [o1 d1]. simpl in *. subst o1.
  destruct (removeIfPresent_gone denied (outputPath j) d1 Ho) as [Hr2 Hg2].
  pose proof (removeIfPresent_shrinks denied (outputPath j) d1) as Hs.
  split; [done|]. split; [|done].
  intros Hne Hin. apply (Hg1 Hne). by eapply shrinks_sub.
Qed.

Lemma sweep_loop_cleans entries now denied w k r j p :
  (k, r) ∈ entries →
  heap w !! r = Some j →
  expired now j = true →
  inputPath j ∉ denied → outputPath j ∉ denied →
  p = inputPath j ∨ p = outputPath j →
  p ≠ "" →
  p ∉ files (disk (sweep_loop entries now denied w)).
Proof.
  revert w. induction entries as [|[k0 r0] rest IH]; intros w Hin Hj Hexp Hi Ho Hp Hne.
  - by apply elem_of_nil in Hin.
  - simpl. apply elem_of_cons in Hin as [[= <- <-]|Hin].
    + rewrite Hj, Hexp. intros Hstill.
      apply (shrinks_sub (disk (evict "sweep cleanup error" k r denied w))) in Hstill;
        [|apply sweep_loop_frame].
      rewrite (evict_disk _ _ _ _ _ _ Hj) in Hstill.
      destruct (removeFiles_gone denied j (disk w) Hi Ho) as (_ & Hg1 & Hg2).
      destruct Hp as [-> | ->]; [by apply Hg1|by apply Hg2].
    + apply IH; try done.
      destruct (heap w !! r0) as [j0|]; [destruct (expired now j0)|]; try done.
      by destruct (evict_frame "sweep cleanup error" k0 r0 denied w) as (-> & _).
Qed.

(** X6. When the operating system refuses neither deletion, eviction
    leaves neither file of the job behind: after the job's cleanup timer
    has fired, and after a sweep that found the job expired, the job's
    input path and output path are not on disk. *)
Theorem eviction_removes_both_files :
  (∀ w i t denied j,
     list_find (λ t', handle t' = handle t) (timers w) = Some (i, t) →
     heap w !! timerJob t = Some j →
     inputPath j ∉ denied → outputPath j ∉ denied →
     let w' := step w (TimerFire (handle t) denied) in
     (inputPath j ≠ "" → inputPath j ∉ files (disk w'))
     ∧ (outputPath j ≠ "" → outputPath j ∉ files (disk w')))
  ∧ (∀ w now denied k r j,
       store_get (jobs w) k = Some r →
       heap w !! r = Some j →
       expired now j = true →
       inputPath j ∉ denied → outputPath j ∉ denied →
       let w' := step w (Sweep now denied) in
       (inputPath j ≠ "" → inputPath j ∉ files (disk w'))
       ∧ (outputPath j ≠ "" → outputPath j ∉ files (disk w'))).
Proof.
  split.
  - intros w i t denied j Hfind Hj Hi Ho w'. subst w'.
    rewrite (timerFire_step _ _ _ _ Hfind). unfold cleanupCallback.
    rewrite (evict_disk _ _ _ _ _ j); [|done].
    by destruct (removeFiles_gone denied j (disk w) Hi Ho) as (_ & ? & ?).
  - intros w now denied k r j Hget Hj Hexp Hi Ho w'. subst w'.
    apply store_get_elem in Hget.
    split; intros Hne; eapply sweep_loop_cleans; eauto.
Qed.

(** X7. A refused deletion of the input file leaks the output file. When
    the input file exists and its [unlinkSync] throws, the [try] block
    is left before the output file is looked at: after the callback the
    disk is as it was, the console has the error, and the job is gone
    from the store, so that no later sweep will come back to its
    files. *)
Theorem refused_input_deletion_orphans_the_output (w : World) (i : nat) (t : Timer)
    (denied : list string) (j : Job) :
  list_find (λ t', handle t' = handle t) (timers w) = Some (i, t) →
  heap w !! timerJob t = Some j →
  inputPath j ≠ "" →
  inputPath j ∈ files (disk w) →
  inputPath j ∈ denied →
  let w' := step w (TimerFire (handle t) denied) in
  disk w' = disk w
  ∧ console w' = console w ++ ["cleanup error EPERM"]
  ∧ store_get (jobs w') (timerJobId t) = None.
Proof.
  intros Hfind Hj Hne Hin Hden w'. subst w'.
  rewrite (timerFire_step _ _ _ _ Hfind). unfold cleanupCallback, evict. simpl.
  rewrite Hj. unfold removeFiles, removeIfPresent, truthy, unlinkSync, existsSync.
  rewrite (bool_decide_true _ Hne), (bool_decide_true _ Hin), (bool_decide_true _ Hden).
  simpl. split; [done|]. split; [done|]. apply store_get_delete_eq.
Qed.

(** ** The shape of every step *)

Lemma updated_alter (f : Job → Job) r (h : list Job) j :
  h !! r = Some j → updated h (alter f r h) r (f j).
Proof.
  intros Hj r'. destruct (decide (r' = r)) as [->|Hne].
  - by rewrite list_lookup_alter_eq, Hj.
  - by rewrite list_lookup_alter_ne.
Qed.

Lemma updated_inv h h' r j' r' x :
  updated h h' r j' → h' !! r' = Some x →
  (r' = r ∧ x = j') ∨ (r' ≠ r ∧ h !! r' = Some x).
Proof.
  intros Hu Hx. rewrite (Hu r') in Hx. destruct (decide (r' = r)) as [->|Hne].
  - left. by simplify_eq.
  - by right.
Qed.

Lemma updated_at h h' r j' : updated h h' r j' → h' !! r = Some j'.
Proof. intros Hu. rewrite (Hu r). by rewrite decide_True. Qed.

Lemma updated_other h h' r j' r' : updated h h' r j' → r' ≠ r → h' !! r' = h !! r'.
Proof. intros Hu Hne. rewrite (Hu r'). by rewrite decide_False. Qed.

Lemma evict_timerSeq label k r denied w : timerSeq (evict label k r denied w) = timerSeq w.
Proof.
  unfold evict.
  by destruct (match heap w !! r with
               | Some job => removeFiles denied job (disk w)
               | None => (Returned, disk w)
               end) as [[|e] d].
Qed.

Lemma sweep_loop_timerSeq entries now denied w :
  timerSeq (sweep_loop entries now denied w) = timerSeq w.
Proof.
  revert w. induction entries as [|[k r] rest IH]; intros w; simpl; [done|].
  rewrite IH. destruct (heap w !! r) as [job|]; [destruct (expired now job)|]; try done.
  apply evict_timerSeq.
Qed.

Lemma sweep_loop_get_Some entries now denied w k r :
  store_get (jobs (sweep_loop entries now denied w)) k = Some r →
  store_get (jobs w) k = Some r.
Proof.
  revert w. induction entries as [|[k0 r0] rest IH]; intros w; simpl; [done|].
  intros H. apply IH in H.
  destruct (heap w !! r0) as [job|]; [destruct (expired now job)|]; try done.
  destruct (evict_frame "sweep cleanup error" k0 r0 denied w) as (_ & Hj & _).
  rewrite Hj in H. by apply store_get_delete_Some in H as [_ ?].
Qed.

Lemma step_trans u en w e :
  Inv u en w → allowed u en e = true → Trans w (step w e).
Proof.
  intros HI Hok.
  destruct e as [[file|] uuid now|thrown now|run p|run t1 t2|run err t1 t2
                |h denied|now denied|p]; simpl.
  - apply (T_upload _ _ uuid file now); try done.
    + intros r j Hj Heq. apply (allowed_upload _ _ _ _ _ Hok).
      rewrite <- Heq. by eapply (inv_used _ _ _ HI).
    + intros Hin. apply (allowed_upload _ _ _ _ _ Hok). by eapply (inv_ticks_used _ _ _ HI).
  - by apply T_quiet.
  - destruct (nextTicks w) as [|k q] eqn:Hq; [by apply T_quiet|].
    unfold convertToMp3. simpl.
    destruct (store_get (jobs w) k) as [r|] eqn:Hget; [|by apply (T_skip _ _ k)].
    destruct (tick_target _ _ _ _ _ _ HI Hq Hget) as (j & Hj & Hid & Hst & _ & Hruns).
    destruct thrown as [err|].
    + unfold scheduleCleanup. simpl. rewrite Hget.
      apply (T_finish _ _ r j
               (set_expiry (now + TTL_MS) (timerSeq w)
                  (set_error (message err) (set_status error (set_status processing j)))));
        simpl; try done.
      * by rewrite Hid.
      * right. by rewrite Hid.
      * rewrite !list_alter_alter_eq.
        apply (updated_alter
                 (set_expiry (now + TTL_MS) (timerSeq w)
                  ∘ ((λ j0, set_error (message err) (set_status error j0))
                     ∘ set_status processing)) r (heap w) j Hj).
      * by rewrite Hid.
    + apply (T_start _ _ k r j); simpl; try done. by apply updated_alter.
  - case_bool_decide as Hrun; [|by apply T_quiet].
    destruct (run_target _ _ _ _ HI Hrun (allowed_run _ _ _ _ Hok eq_refl))
      as (j & Hj & _ & Hst & _).
    apply (T_progress _ _ run.2 j (Math_round (or_zero p))); simpl; try done.
    by apply updated_alter.
  - case_bool_decide as Hrun; [|by apply T_quiet].
    destruct (run_target _ _ _ _ HI Hrun (allowed_run _ _ _ _ Hok eq_refl))
      as (j & Hj & Hid & Hst & Hget & _).
    unfold onEnd, scheduleCleanup. simpl. rewrite Hget.
    apply (T_finish _ _ run.2 j
             (set_expiry (t2 + TTL_MS) (timerSeq w)
                (set_finishedAt t1 (set_progress 100 (set_status done j)))));
      simpl; try done.
    + by rewrite Hid.
    + by left.
    + rewrite list_alter_alter_eq.
      apply (updated_alter
               (set_expiry (t2 + TTL_MS) (timerSeq w)
                ∘ (λ j0, set_finishedAt t1 (set_progress 100 (set_status done j0))))
               run.2 (heap w) j Hj).
    + by rewrite Hid.
  - case_bool_decide as Hrun; [|by apply T_quiet].
    destruct (run_target _ _ _ _ HI Hrun (allowed_run _ _ _ _ Hok eq_refl))
      as (j & Hj & Hid & Hst & Hget & _).
    unfold onError, scheduleCleanup. simpl. rewrite Hget.
    apply (T_finish _ _ run.2 j
             (set_expiry (t2 + TTL_MS) (timerSeq w)
                (set_finishedAt t1
                   (set_error (message_or_string err) (set_status error j)))));
      simpl; try done.
    + by rewrite Hid.
    + by left.
    + rewrite list_alter_alter_eq.
      apply (updated_alter
               (set_expiry (t2 + TTL_MS) (timerSeq w)
                ∘ (λ j0, set_finishedAt t1
                           (set_error (message_or_string err) (set_status error j0))))
               run.2 (heap w) j Hj).
    + by rewrite Hid.
  - destruct (list_find _ _) as [[i t]|] eqn:Hfind; [|by apply T_quiet].
    apply list_find_Some in Hfind as (Hi & Hh & _).
    set (w0 := with_timers (filter (λ t', handle t' ≠ h) (timers w)) (timerSeq w) w).
    unfold cleanupCallback.
    destruct (evict_frame "cleanup error" (timerJobId t) (timerJob t) denied w0)
      as (Hheap & Hjobs & Hq & He & Ht & _).
    apply (T_fire _ _ t).
    + by eapply list_elem_of_lookup_2.
    + rewrite Ht, Hh. done.
    + by rewrite Hjobs.
    + by rewrite Hheap.
    + by rewrite Hq.
    + by rewrite He.
    + by rewrite evict_timerSeq.
  - destruct (sweep_loop_frame (jobs w) now denied w) as (Hheap & Hq & He & Ht & _).
    apply T_sweep; try done.
    + intros k r. apply sweep_loop_get_Some.
    + intros k r j Hget Hj Hnt. unfold sweep. rewrite sweep_loop_retains; [done|].
      intros r' j' Hin Hj'.
      destruct (inv_store _ _ _ HI k r' Hin) as (j0 & Hj0 & Hid0 & _).
      destruct (inv_store _ _ _ HI k r (store_get_elem _ _ _ Hget)) as (j1 & Hj1 & Hid1 & _).
      simplify_eq.
      assert (r' = r) as -> by (eapply (inv_ids _ _ _ HI); [done..|congruence]).
      simplify_eq. unfold expired. by rewrite (inv_expiry _ _ _ HI r _ Hj Hnt).
    + apply sweep_loop_timerSeq.
  - by apply T_quiet.
Qed.

(** ** The lifecycle invariant is kept by every step *)

Lemma NoDup_fmap_same {A B} (f : A → B) (l : list A) x y :
  NoDup (f <$> l) → x ∈ l → y ∈ l → f x = f y → x = y.
Proof.
  induction l as [|a l IH]; [intros _ H; by apply elem_of_nil in H|].
  rewrite fmap_cons. intros [Ha Hnd]%NoDup_cons [->|Hx]%elem_of_cons [->|Hy]%elem_of_cons Heq.
  - done.
  - destruct Ha. rewrite Heq. apply list_elem_of_fmap. eauto.
  - destruct Ha. rewrite <- Heq. apply list_elem_of_fmap. eauto.
  - auto.
Qed.

Lemma Life_quiet w w' : Life w → quiet w w' → Life w'.
Proof.
  intros [] (Hh & Hj & Hq & He & Ht & Hs).
  constructor; rewrite ?Hh, ?Hj, ?Hq, ?He, ?Ht, ?Hs; auto.
Qed.

Lemma Life_upload u en w w' uuid file now :
  Inv u en w → Life w →
  (∀ r j, heap w !! r = Some j → id j ≠ uuid) →
  uuid ∉ nextTicks w →
  heap w' = heap w ++ [mkJob uuid queued 0 file (output_path uuid) now None None None None] →
  jobs w' = store_set (jobs w) uuid (length (heap w)) →
  nextTicks w' = nextTicks w ++ [uuid] →
  encoders w' = encoders w → timers w' = timers w → timerSeq w' = timerSeq w →
  Life w'.
Proof.
  intros HI [] Hfresh Hnt Hh Hj Hq He Ht Hs.
  set (job := mkJob uuid queued 0 file (output_path uuid) now None None None None) in *.
  assert (∀ r j, heap w' !! r = Some j →
            heap w !! r = Some j ∨ (r = length (heap w) ∧ j = job)) as Hlook.
  { intros r j. rewrite Hh. intros [[_ ?]|[? ?]]%lookup_snoc_Some; [by left|by right]. }
  constructor; rewrite ?Hj, ?Hq, ?He, ?Ht, ?Hs; try done.
  - intros r j [Hr|[-> ->]]%Hlook Hst.
    + destruct (life_queued0 r j Hr Hst) as (? & ? & ? & ?).
      repeat split; try done.
      * rewrite store_get_set_ne; [done|]. intros Heq. by eapply Hfresh.
      * apply elem_of_app. by left.
    + simpl. repeat split; try done.
      * apply store_get_set_eq.
      * apply elem_of_app. right. left.
  - intros k [Hk| ->%list_elem_of_singleton]%elem_of_app.
    + destruct (life_ticks0 k Hk) as (r & j & Hget & Hr & Hst).
      exists r, j. rewrite Hh. split; [|split; [by apply lookup_app_l_Some|done]].
      rewrite store_get_set_ne; [done|]. by intros ->.
    + exists (length (heap w)), job. rewrite Hh. split; [apply store_get_set_eq|].
      split; [by apply list_lookup_middle|done].
  - intros r j [Hr|[-> ->]]%Hlook Hst; [eauto|done].
  - intros r j [Hr|[-> ->]]%Hlook Hst; [eauto|done].
  - intros r j [Hr|[-> ->]]%Hlook Hst Hget; [|done].
    apply life_pending0; try done.
    rewrite store_get_set_ne in Hget; [done|]. intros Heq. by eapply Hfresh.
Qed.

Lemma Life_start u en w w' k r j :
  Inv u en w → Life w →
  nextTicks w = k :: nextTicks w' →
  store_get (jobs w) k = Some r →
  heap w !! r = Some j → status j = queued → id j = k →
  (∀ run, run ∈ encoders w → run.2 ≠ r) →
  updated (heap w) (heap w') r (set_status processing j) →
  encoders w' = encoders w ++ [(k, r)] →
  jobs w' = jobs w → timers w' = timers w → timerSeq w' = timerSeq w →
  Life w'.
Proof.
  intros HI [] Hq Hget Hj Hst Hid Hruns Hu He Hjobs Ht Hs.
  pose proof (inv_ticks_nodup _ _ _ HI) as Hnd. rewrite Hq in Hnd.
  apply NoDup_cons in Hnd as [Hk Hnd].
  constructor; rewrite ?Hjobs, ?He, ?Ht, ?Hs; try done.
  - intros r' j' [[-> ->]|[Hne Hr']]%(updated_inv _ _ _ _ _ _ Hu) Hst'; [done|].
    destruct (life_queued0 r' j' Hr' Hst') as (? & ? & Hget' & Hin).
    repeat split; try done. rewrite Hq in Hin.
    apply elem_of_cons in Hin as [Heq|?]; [|done].
    rewrite Heq, Hget in Hget'. congruence.
  - intros k' Hk'.
    destruct (life_ticks0 k') as (r' & j' & Hget' & Hr' & Hst'); [rewrite Hq; by right|].
    exists r', j'. split; [done|]. split; [|done].
    rewrite (updated_other _ _ _ _ _ Hu); [done|]. intros ->.
    destruct (inv_store _ _ _ HI k' r (store_get_elem _ _ _ Hget')) as (j0 & Hj0 & Hid0 & _).
    by simplify_eq.
  - intros r' j' [[-> ->]|[Hne Hr']]%(updated_inv _ _ _ _ _ _ Hu) Hst'; [done|eauto].
  - intros r' j' [[-> ->]|[Hne Hr']]%(updated_inv _ _ _ _ _ _ Hu) Hst'; [|eauto].
    simpl in Hst'. done.
  - intros r' j' [[-> ->]|[Hne Hr']]%(updated_inv _ _ _ _ _ _ Hu) Hst'; [|eauto].
    simpl in Hst'. done.
  - rewrite fmap_app. apply NoDup_app. split; [done|]. split; [|apply NoDup_singleton].
    intros x (run & Heq & Hin)%list_elem_of_fmap Hx%list_elem_of_singleton.
    simpl in Hx. apply (Hruns _ Hin). congruence.
Qed.

Lemma Life_finish u en w w' r j j' :
  Inv u en w → Life w →
  heap w !! r = Some j →
  store_get (jobs w) (id j) = Some r →
  (status j = processing ∧ nextTicks w' = nextTicks w)
  ∨ (status j = queued ∧ nextTicks w = id j :: nextTicks w') →
  updated (heap w) (heap w') r j' →
  id j' = id j →
  is_terminal (status j') = true →
  is_Some (expiresAt j') →
  cleanupTimer j' = Some (timerSeq w) →
  (status j' = done → progress j' = 100 ∧ is_Some (finishedAt j')) →
  timers w' = timers w ++ [mkTimer (timerSeq w) (id j) r] →
  timerSeq w' = S (timerSeq w) →
  jobs w' = jobs w → encoders w' = encoders w →
  Life w'.
Proof.
  intros HI [] Hj Hget Hcase Hu Hid Hterm Hexp Hct Hdone Ht Hs Hjobs He.
  assert (is_terminal (status j) = false) as Hlive.
  { destruct Hcase as [[-> _]|[-> _]]; done. }
  assert (∀ k, k ∈ nextTicks w' → k ∈ nextTicks w ∧ k ≠ id j) as Hticks.
  { intros k Hk. destruct Hcase as [[Hst Hq]|[Hst Hq]].
    - rewrite Hq in Hk. split; [done|]. intros ->.
      pose proof (inv_ticks _ _ _ HI (id j) r j Hk Hget Hj). congruence.
    - pose proof (inv_ticks_nodup _ _ _ HI) as Hnd. rewrite Hq in Hnd.
      apply NoDup_cons in Hnd as [Hn _]. rewrite Hq. split; [by right|]. by intros ->. }
  constructor; rewrite ?Hjobs, ?He, ?Ht, ?Hs; try done.
  - intros r' x [[-> ->]|[Hne Hr']]%(updated_inv _ _ _ _ _ _ Hu) Hst'.
    { by rewrite Hst' in Hterm. }
    destruct (life_queued0 r' x Hr' Hst') as (? & ? & Hget' & Hin).
    repeat split; try done.
    destruct Hcase as [[_ Hq]|[_ Hq]]; [by rewrite Hq|].
    rewrite Hq in Hin. apply elem_of_cons in Hin as [Heq|?]; [|done].
    destruct Hne. eapply (inv_ids _ _ _ HI); done.
  - intros k Hk. destruct (Hticks k Hk) as [Hk' Hne].
    destruct (life_ticks0 k Hk') as (r' & x & Hget' & Hr' & Hst').
    exists r', x. split; [done|]. split; [|done].
    rewrite (updated_other _ _ _ _ _ Hu); [done|]. intros ->.
    destruct (inv_store _ _ _ HI k r (store_get_elem _ _ _ Hget')) as (j0 & Hj0 & Hid0 & _).
    by simplify_eq.
  - intros r' x [[-> ->]|[Hne Hr']]%(updated_inv _ _ _ _ _ _ Hu) Hst'; eauto.
  - intros r' x [[-> ->]|[Hne Hr']]%(updated_inv _ _ _ _ _ _ Hu) Hst'; [|eauto].
    split; [done|]. rewrite Hct. eauto.
  - intros r' x [[-> ->]|[Hne Hr']]%(updated_inv _ _ _ _ _ _ Hu) Hst' Hget'.
    + exists (mkTimer (timerSeq w) (id j) r). split; [apply elem_of_app; right; left|].
      simpl. by rewrite Hid.
    + destruct (life_pending0 r' x Hr' Hst' Hget') as (t & Hin & ?).
      exists t. split; [apply elem_of_app; by left|done].
  - rewrite fmap_app. apply NoDup_app. split; [done|]. split; [|apply NoDup_singleton].
    intros x (t & Heq & Hin)%list_elem_of_fmap Hx%list_elem_of_singleton. simpl in *.
    destruct (inv_timers _ _ _ HI t Hin) as (jt & Hjt & Hidt & Htt).
    assert (timerJob t = r) as Hr by (eapply (inv_ids _ _ _ HI); [done..|congruence]).
    rewrite Hr in Hjt. simplify_eq. congruence.
  - rewrite fmap_app. apply NoDup_app. split; [done|]. split; [|apply NoDup_singleton].
    intros x (t & Heq & Hin)%list_elem_of_fmap Hx%list_elem_of_singleton. simpl in *.
    pose proof (life_handle_bound0 t Hin). lia.
  - intros t [Hin| ->%list_elem_of_singleton]%elem_of_app; simpl; [|lia].
    pose proof (life_handle_bound0 t Hin). lia.
Qed.

Lemma Life_progress w w' r j p :
  Life w →
  heap w !! r = Some j → status j = processing →
  updated (heap w) (heap w') r (set_progress p j) →
  jobs w' = jobs w → nextTicks w' = nextTicks w →
  encoders w' = encoders w → timers w' = timers w → timerSeq w' = timerSeq w →
  Life w'.
Proof.
  intros [] Hj Hst Hu Hjobs Hq He Ht Hs.
  constructor; rewrite ?Hjobs, ?Hq, ?He, ?Ht, ?Hs; try done.
  - intros r' x [[-> ->]|[Hne Hr']]%(updated_inv _ _ _ _ _ _ Hu) Hst'; [|eauto].
    simpl in Hst'. congruence.
  - intros k Hk. destruct (life_ticks0 k Hk) as (r' & x & Hget' & Hr' & Hst').
    exists r', x. split; [done|]. split; [|done].
    rewrite (updated_other _ _ _ _ _ Hu); [done|]. intros ->. simplify_eq. congruence.
  - intros r' x [[-> ->]|[Hne Hr']]%(updated_inv _ _ _ _ _ _ Hu) Hst'; [|eauto].
    simpl in Hst'. congruence.
  - intros r' x [[-> ->]|[Hne Hr']]%(updated_inv _ _ _ _ _ _ Hu) Hst'; [|eauto].
    simpl in Hst'. by rewrite Hst in Hst'.
  - intros r' x [[-> ->]|[Hne Hr']]%(updated_inv _ _ _ _ _ _ Hu) Hst'; [|eauto].
    simpl in Hst'. by rewrite Hst in Hst'.
Qed.

Lemma Life_fire u en w w' t :
  Inv u en w → Life w →
  t ∈ timers w →
  timers w' = filter (λ t', handle t' ≠ handle t) (timers w) →
  jobs w' = store_delete (jobs w) (timerJobId t) →
  heap w' = heap w → nextTicks w' = nextTicks w →
  encoders w' = encoders w → timerSeq w' = timerSeq w →
  Life w'.
Proof.
  intros HI [] Hin Ht Hjobs Hh Hq He Hs.
  destruct (inv_timers _ _ _ HI t Hin) as (jt & Hjt & Hidt & Htt).
  assert (∀ r j, heap w !! r = Some j → is_terminal (status j) = false →
            id j ≠ timerJobId t) as Hother.
  { intros r j Hj Hlive Heq.
    assert (r = timerJob t) as -> by (eapply (inv_ids _ _ _ HI); [done..|congruence]).
    simplify_eq. congruence. }
  constructor; rewrite ?Hjobs, ?Hh, ?Hq, ?He, ?Ht, ?Hs; try done.
  - intros r j Hj Hst. destruct (life_queued0 r j Hj Hst) as (? & ? & ? & ?).
    repeat split; try done. rewrite store_get_delete_ne; [done|].
    intros Heq. eapply Hother; [done| |done]. by rewrite Hst.
  - intros k Hk. destruct (life_ticks0 k Hk) as (r & j & Hget & Hj & Hst).
    exists r, j. split; [|done]. rewrite store_get_delete_ne; [done|]. intros Heq.
    destruct (inv_store _ _ _ HI k r (store_get_elem _ _ _ Hget)) as (j0 & Hj0 & Hid0 & _).
    simplify_eq. eapply Hother; [done| |done]. by rewrite Hst.
  - intros r j Hj Hst Hget. apply store_get_delete_Some in Hget as [Hne Hget].
    destruct (life_pending0 r j Hj Hst Hget) as (t0 & Hin0 & Hr0 & Hid0 & Hc0).
    exists t0. split; [|done]. apply list_elem_of_filter. split; [|done].
    intros Heq. assert (t0 = t) as -> by by eapply (NoDup_fmap_same handle).
    congruence.
  - eapply sublist_NoDup; [exact life_timer_ids0|]. apply fmap_sublist, sublist_filter.
  - eapply sublist_NoDup; [exact life_handles0|]. apply fmap_sublist, sublist_filter.
  - intros t0 [_ Hin0]%list_elem_of_filter. auto.
Qed.

Lemma Life_sweep w w' :
  Life w →
  (∀ k r, store_get (jobs w') k = Some r → store_get (jobs w) k = Some r) →
  (∀ k r j, store_get (jobs w) k = Some r → heap w !! r = Some j →
            is_terminal (status j) = false → store_get (jobs w') k = Some r) →
  heap w' = heap w → nextTicks w' = nextTicks w →
  encoders w' = encoders w → timers w' = timers w → timerSeq w' = timerSeq w →
  Life w'.
Proof.
  intros [] Hsub Hkeep Hh Hq He Ht Hs.
  constructor; rewrite ?Hh, ?Hq, ?He, ?Ht, ?Hs; try done.
  - intros r j Hj Hst. destruct (life_queued0 r j Hj Hst) as (? & ? & Hget & ?).
    repeat split; try done. eapply Hkeep; [done..|]. by rewrite Hst.
  - intros k Hk. destruct (life_ticks0 k Hk) as (r & j & Hget & Hj & Hst).
    exists r, j. split; [|done]. eapply Hkeep; [done..|]. by rewrite Hst.
  - intros r j Hj Hst Hget. apply life_pending0; auto.
Qed.

Lemma Life_trans u en w w' : Inv u en w → Life w → Trans w w' → Life w'.
Proof.
  intros HI HL [Hq|uuid file now|k Hq Hget|k r j|r j j'|r j p|t|].
  - by eapply Life_quiet.
  - by eapply Life_upload.
  - destruct (life_ticks _ HL k) as (r & j & Hget' & _); [rewrite Hq; left|]. congruence.
  - by eapply Life_start.
  - by eapply Life_finish.
  - by eapply Life_progress.
  - by eapply Life_fire.
  - by eapply Life_sweep.
Qed.

Lemma Life_initial : Life initial.
Proof.
  constructor; simpl; try done;
    first [ apply NoDup_nil_2 | intros ? H; by apply elem_of_nil in H ].
Qed.

Lemma reach_prefix pre post u en w :
  Inv u en w → Life w → env_ok_from u en (pre ++ post) = true →
  ∃ u' en', Inv u' en' (exec w pre) ∧ Life (exec w pre) ∧ env_ok_from u' en' post = true.
Proof.
  revert u en w. induction pre as [|e pre IH]; intros u en w HI HL Hok; simpl in *.
  - eauto.
  - apply andb_true_iff in Hok as [Hok1 Hok2].
    eapply IH; [by apply Inv_step| |done].
    eapply Life_trans; [done..|]. by eapply step_trans.
Qed.

Lemma reach tr :
  env_ok tr = true → ∃ u en, Inv u en (exec initial tr) ∧ Life (exec initial tr).
Proof.
  intros Hok.
  destruct (reach_prefix tr [] [] [] initial Inv_initial Life_initial) as (u & en & ? & ? & _).
  - by rewrite app_nil_r.
  - eauto.
Qed.

(** ** What the lifecycle invariant gives *)

(** X8. Only jobs that reached a terminal state are ever evicted. In
    every state the server can reach, a job that is [queued] or
    [processing] is in the store under its id, has no [expiresAt], and
    no pending cleanup timer is for its id. *)
Theorem unfinished_jobs_are_never_evicted (tr : list Event) (r : nat) (j : Job) :
  env_ok tr = true →
  let w := exec initial tr in
  heap w !! r = Some j →
  is_terminal (status j) = false →
  jobs_get w (id j) = Some j
  ∧ expiresAt j = None
  ∧ ∀ t, t ∈ timers w → timerJobId t ≠ id j.
Proof.
  intros Hok w Hj Hlive. destruct (reach tr Hok) as (u & en & HI & HL). fold w in HI, HL.
  assert (store_get (jobs w) (id j) = Some r) as Hget.
  { apply not_terminal_iff in Hlive as [Hq|Hp].
    - by destruct (life_queued _ HL r j Hj Hq) as (_ & _ & ? & _).
    - by apply (inv_live _ _ _ HI). }
  split; [unfold jobs_get; by rewrite Hget|].
  split; [by apply (inv_expiry _ _ _ HI r)|].
  intros t Ht Heq. destruct (inv_timers _ _ _ HI t Ht) as (jt & Hjt & Hidt & Htt).
  assert (timerJob t = r) as Hr by (eapply (inv_ids _ _ _ HI); [done..|congruence]).
  rewrite Hr in Hjt. simplify_eq. congruence.
Qed.

Lemma status_of_queued_or_done u en w k j :
  Inv u en w → Life w →
  jobs_get w k = Some j →
  (status j = queued →
     statusRoute w k = safeSendJSON 200 (StatusJson k queued 0 None None))
  ∧ (status j = done →
       statusRoute w k
       = safeSendJSON 200 (StatusJson k done 100 (Some ("/api/download/" +:+ k)) None)
       ∧ is_Some (finishedAt j) ∧ is_Some (expiresAt j)).
Proof.
  intros HI HL Hjob.
  destruct (store_wf_get _ _ _ (inv_store _ _ _ HI) Hjob) as [Hid _].
  unfold statusRoute. rewrite Hjob.
  unfold jobs_get in Hjob. destruct (store_get (jobs w) k) as [r|]; [|done]. simpl in Hjob.
  pose proof (inv_error _ _ _ HI r j Hjob) as Herr.
  assert (status j ≠ error → jobError j = None) as Hnoerr.
  { intros Hne. destruct (jobError j) eqn:He; [|done]. destruct Hne. apply Herr. eauto. }
  split; intros Hst.
  - destruct (life_queued _ HL r j Hjob Hst) as (Hp & _).
    rewrite Hid, Hst, Hp, Hnoerr; [done|]. by rewrite Hst.
  - destruct (life_done _ HL r j Hjob Hst) as (Hp & Hfin).
    destruct (life_expiry _ HL r j Hjob) as (Hexp & _); [by rewrite Hst|].
    rewrite Hid, Hst, Hp, Hnoerr; [done|]. by rewrite Hst.
Qed.

(** X9. What the status route says of a job follows its status: in
    every state the server can reach, a job in the store that is still
    [queued] is reported with progress 0 and neither download reference
    nor error, and a job that is [done] is reported with progress 100,
    the download reference [/api/download/<id>] and no error; a [done]
    job has its [finishedAt] and [expiresAt] set. *)
Theorem status_payload_of_queued_and_done_jobs (tr : list Event) (k : string) (j : Job) :
  env_ok tr = true →
  let w := exec initial tr in
  jobs_get w k = Some j →
  (status j = queued →
     statusRoute w k = safeSendJSON 200 (StatusJson k queued 0 None None))
  ∧ (status j = done →
       statusRoute w k
       = safeSendJSON 200 (StatusJson k done 100 (Some ("/api/download/" +:+ k)) None)
       ∧ is_Some (finishedAt j) ∧ is_Some (expiresAt j)).
Proof.
  intros Hok w Hjob. destruct (reach tr Hok) as (u & en & HI & HL). fold w in HI, HL.
  by eapply status_of_queued_or_done.
Qed.

(** X10. A finished job stays scheduled for eviction until it is
    evicted: in every state the server can reach, a job in the store
    that is [done] or [error] has its [expiresAt] set and a pending
    cleanup timer, the one whose handle is in [job.cleanupTimer]; when
    that timer fires the job leaves the store. *)
Theorem finished_job_keeps_its_timer (tr : list Event) (k : string) (j : Job) :
  env_ok tr = true →
  let w := exec initial tr in
  jobs_get w k = Some j →
  is_terminal (status j) = true →
  is_Some (expiresAt j)
  ∧ ∃ i t, list_find (λ t', handle t' = handle t) (timers w) = Some (i, t)
           ∧ timerJobId t = k
           ∧ cleanupTimer j = Some (handle t)
           ∧ ∀ denied, store_get (jobs (step w (TimerFire (handle t) denied))) k = None.
Proof.
  intros Hok w Hjob Hterm. destruct (reach tr Hok) as (u & en & HI & HL). fold w in HI, HL.
  destruct (store_wf_get _ _ _ (inv_store _ _ _ HI) Hjob) as [Hid _].
  unfold jobs_get in Hjob. destruct (store_get (jobs w) k) as [r|] eqn:Hget; [|done].
  simpl in Hjob.
  destruct (life_expiry _ HL r j Hjob Hterm) as (Hexp & _). split; [done|].
  destruct (life_pending _ HL r j Hjob Hterm) as (t & Hin & Hr & Htid & Hct);
    [by rewrite Hid|].
  destruct (list_find_elem_of (λ t', handle t' = handle t) (timers w) t Hin eq_refl)
    as [[i t0] Hfind].
  pose proof Hfind as (Hi & Hh & _)%list_find_Some.
  assert (t0 = t) as ->.
  { eapply (NoDup_fmap_same handle); [apply (life_handles _ HL)| |done..].
    by eapply list_elem_of_lookup_2. }
  exists i, t. split; [done|]. split; [congruence|]. split; [done|].
  intros denied. rewrite (timerFire_step _ _ _ _ Hfind).
  match goal with |- context [cleanupCallback t denied ?w0] =>
    destruct (cleanupCallback_frame t denied w0) as (-> & _) end.
  rewrite <- Hid, <- Htid. apply store_get_delete_eq.
Qed.

(** X11. No job is handed to ffmpeg twice: in every state the server can
    reach, two registered sets of handlers never share a job id or a job
    object. *)
Theorem no_job_is_converted_twice (tr : list Event) (i1 i2 : nat) (run1 run2 : string * nat) :
  env_ok tr = true →
  let w := exec initial tr in
  encoders w !! i1 = Some run1 →
  encoders w !! i2 = Some run2 →
  run1.1 = run2.1 ∨ run1.2 = run2.2 →
  i1 = i2.
Proof.
  intros Hok w H1 H2 Hsame. destruct (reach tr Hok) as (u & en & HI & HL). fold w in HI, HL.
  assert (run1.2 = run2.2) as Href.
  { destruct Hsame as [Hid|?]; [|done].
    destruct (inv_runs _ _ _ HI run1) as (j1 & Hj1 & Hid1 & _);
      [by eapply list_elem_of_lookup_2|].
    destruct (inv_runs _ _ _ HI run2) as (j2 & Hj2 & Hid2 & _);
      [by eapply list_elem_of_lookup_2|].
    eapply (inv_ids _ _ _ HI); [done..|congruence]. }
  eapply (NoDup_lookup _ i1 i2 run1.2 (life_runs _ HL)).
  - by rewrite list_lookup_fmap, H1.
  - by rewrite list_lookup_fmap, H2, Href.
Qed.

(** X12. Eviction is armed once: in every state the server can reach, at
    most one pending cleanup timer is for a given job id. *)
Theorem one_cleanup_timer_per_job (tr : list Event) (i1 i2 : nat) (t1 t2 : Timer) :
  env_ok tr = true →
  let w := exec initial tr in
  timers w !! i1 = Some t1 →
  timers w !! i2 = Some t2 →
  timerJobId t1 = timerJobId t2 →
  i1 = i2.
Proof.
  intros Hok w H1 H2 Hsame. destruct (reach tr Hok) as (u & en & HI & HL). fold w in HI, HL.
  eapply (NoDup_lookup _ i1 i2 (timerJobId t1) (life_timer_ids _ HL)).
  - by rewrite list_lookup_fmap, H1.
  - by rewrite list_lookup_fmap, H2, Hsame.
Qed.

(** X13. Conversions start in upload order and always find their job.
    In every state the server can reach, the id at the head of the
    [nextTick] queue is that of a [queued] job in the store; the tick
    removes it from the queue and leaves the job [processing] with one
    more set of handlers registered, or [error] when starting ffmpeg
    throws. *)
Theorem tick_starts_the_oldest_queued_job (tr : list Event) (thrown : option JsError)
    (now : Z) (k : string) (q : list string) :
  env_ok (tr ++ [NextTick thrown now]) = true →
  let w := exec initial tr in
  nextTicks w = k :: q →
  ∃ r j, store_get (jobs w) k = Some r ∧ heap w !! r = Some j ∧ status j = queued
         ∧ let w' := step w (NextTick thrown now) in
           nextTicks w' = q
           ∧ ∃ j', jobs_get w' k = Some j'
                   ∧ status j' = match thrown with None => processing | Some _ => error end
                   ∧ (thrown = None → encoders w' = encoders w ++ [(k, r)]).
Proof.
  intros Hok w Hq.
  destruct (reach_prefix tr [NextTick thrown now] [] [] initial Inv_initial Life_initial Hok)
    as (u & en & HI & HL & _). fold w in HI, HL.
  destruct (life_ticks _ HL k) as (r & j & Hget & Hj & Hst); [rewrite Hq; left|].
  exists r, j. split; [done|]. split; [done|]. split; [done|].
  simpl. rewrite Hq. unfold convertToMp3, jobs_get. simpl. rewrite Hget.
  destruct thrown as [err|].
  - unfold scheduleCleanup. simpl. rewrite Hget. simpl. split; [done|].
    rewrite Hget. simpl. rewrite !list_lookup_alter_eq, Hj. simpl.
    eexists. split; [done|]. done.
  - simpl. split; [done|]. rewrite Hget. simpl. rewrite list_lookup_alter_eq, Hj. simpl.
    eexists. split; [done|]. done.
Qed.

(** ** The page against the server *)

(** X14. The page stops polling exactly when the server reports a
    finished job. Against the answer of the status route in any state of
    the server, a running poll is stopped by the callback if and only if
    the id is in the store with status [done] or [error]. For an id that
    is not in the store (never uploaded, or already evicted) the page
    shows an empty bar and the line [undefined - Job not found], and
    goes on polling. *)
Theorem poll_stops_exactly_on_finished_jobs (w : World) (k : string) (v : PollView) :
  polling v = true →
  let v' := pollCallback (body (statusRoute w k)) v in
  (polling v' = false ↔ ∃ j, jobs_get w k = Some j ∧ is_terminal (status j) = true)
  ∧ (jobs_get w k = None →
     v' = mkPollView "0%" (TextContent "undefined - Job not found") true).
Proof.
  intros Hv v'. subst v'. unfold statusRoute.
  destruct (jobs_get w k) as [j|] eqn:Hjob; simpl.
  - split; [|done]. unfold pollCallback. simpl.
    destruct (status j) eqn:Hst; simpl; rewrite ?Hv; split; try done.
    + by intros (j' & [= <-] & Ht); rewrite Hst in Ht.
    + by intros (j' & [= <-] & Ht); rewrite Hst in Ht.
    + intros _. exists j. by rewrite Hst.
    + intros _. exists j. by rewrite Hst.
  - rewrite Hv. split; [|done]. split; [done|]. by intros (j' & [=] & _).
Qed.

(** X15. What the page shows of a job the server has in its store, in
    every state the server can reach: while the job is [queued], an
    empty bar and the line [queued], and polling goes on; once it is
    [done], a full bar and the link to [/api/download/<id>], and polling
    has stopped. *)
Theorem page_shows_queued_and_done_jobs (tr : list Event) (k : string) (j : Job)
    (v : PollView) :
  env_ok tr = true →
  let w := exec initial tr in
  jobs_get w k = Some j →
  (status j = queued →
     pollCallback (body (statusRoute w k)) v
     = mkPollView "0%" (TextContent "queued") (polling v))
  ∧ (status j = done →
       pollCallback (body (statusRoute w k)) v
       = mkPollView "100%"
           (InnerHTML ("Completed — <a href=" +:+ dquote +:+ "/api/download/" +:+ k
                       +:+ dquote +:+ ">Download MP3</a>"))
           false).
Proof.
  intros Hok w Hjob. destruct (reach tr Hok) as (u & en & HI & HL). fold w in HI, HL.
  destruct (status_of_queued_or_done _ _ _ _ _ HI HL Hjob) as [Hq Hd].
  split; intros Hst.
  - by rewrite (Hq Hst).
  - destruct (Hd Hst) as (-> & _). done.
Qed.

(** ** Stored file names *)

Lemma string_app_assoc (a b c : string) : (a +:+ b) +:+ c = a +:+ (b +:+ c).
Proof. induction a as [|x a IH]; [done|]. rewrite !string_app_cons. by rewrite IH. Qed.

Lemma pretty_N_go_no_dash x s : no_dash s = true → no_dash (pretty_N_go x s) = true.
Proof.
  revert s. induction (N.lt_wf_0 x) as [x _ IH]; intros s Hs.
  assert (x = 0 ∨ 0 < x)%N as [->|Hpos] by lia.
  - by rewrite pretty_N_go_0.
  - rewrite pretty_N_go_step by done. apply IH; [by apply N.div_lt|].
    simpl. rewrite Hs, andb_true_r. unfold pretty_N_char. by repeat case_match.
Qed.

Lemma pretty_N_no_dash (x : N) : no_dash (pretty x) = true.
Proof.
  unfold pretty, pretty_N. case_decide; [done|]. by apply pretty_N_go_no_dash.
Qed.

Lemma split_at_dash (d1 d2 s1 s2 : string) :
  no_dash d1 = true → no_dash d2 = true →
  d1 +:+ "-" +:+ s1 = d2 +:+ "-" +:+ s2 →
  d1 = d2 ∧ s1 = s2.
Proof.
  revert d2. induction d1 as [|a d1 IH]; intros [|b d2] H1 H2 Heq.
  - split; [done|]. by injection Heq.
  - rewrite string_app_cons in Heq. injection Heq as <- _. simpl in H2. done.
  - rewrite string_app_cons in Heq. injection Heq as -> _. simpl in H1. done.
  - rewrite !string_app_cons in Heq. injection Heq as -> Heq.
    simpl in H1, H2. apply andb_true_iff in H1 as [_ H1]. apply andb_true_iff in H2 as [_ H2].
    destruct (IH d2 H1 H2 Heq) as [-> ->]. done.
Qed.

(** X16. Two uploads are stored under the same file name only if they
    were named in the same millisecond, drew the same random number and
    carry the same original name. *)
Theorem upload_filename_is_injective (now1 rnd1 now2 rnd2 : N) (name1 name2 : string) :
  upload_filename now1 rnd1 name1 = upload_filename now2 rnd2 name2 →
  now1 = now2 ∧ rnd1 = rnd2 ∧ name1 = name2.
Proof.
  unfold upload_filename. rewrite !string_app_assoc. intros Heq.
  apply split_at_dash in Heq as [Hnow Heq]; [|apply pretty_N_no_dash..].
  apply split_at_dash in Heq as [Hrnd Hname]; [|apply pretty_N_no_dash..].
  split; [by apply (inj pretty)|]. split; [by apply (inj pretty)|done].
Qed.

(** ** Time to live, and what a download serves *)

(** X17. A finished job survives the sweeps for its time to live, and no
    longer. In every state the server can reach, after the ['end'] event
    of a [processing] job whose eviction was armed at clock reading
    [tArmed], a sweep at [now] removes the job from the store if and
    only if [tArmed + TTL_MS <= now] (and that sum is not 0, which the
    sweep takes for an unset expiry). *)
Theorem finished_job_is_swept_after_its_ttl (tr : list Event) (run : string * nat)
    (tFinished tArmed now : Z) (denied : list string) :
  env_ok (tr ++ [EncEnd run tFinished tArmed]) = true →
  let w := exec initial tr in
  run ∈ encoders w →
  let w' := step w (EncEnd run tFinished tArmed) in
  store_get (jobs w') run.1 = Some run.2
  ∧ (store_get (jobs (step w' (Sweep now denied))) run.1 = None
     ↔ tArmed + TTL_MS ≠ 0 ∧ tArmed + TTL_MS <= now).
Proof.
  intros Hok w Hrun w'.
  destruct (Inv_exec_prefix tr [EncEnd run tFinished tArmed] [] [] initial Inv_initial Hok)
    as (u & en & HI & Hok').
  simpl in Hok'. rewrite andb_true_r in Hok'. fold w in HI.
  destruct (run_target _ _ _ _ HI Hrun (allowed_run _ _ _ _ Hok' eq_refl))
    as (j & Hj & _ & _ & Hget & _).
  destruct (onEnd_effect w run tFinished tArmed j Hj Hget) as (Hh & _ & Hjobs).
  assert (w' = onEnd run tFinished tArmed w) as Hw'.
  { subst w'. simpl. by rewrite (bool_decide_true _ Hrun). }
  assert (NoDup (jobs w').*1) as Hnd.
  { pose proof (reachable_keys_nodup (tr ++ [EncEnd run tFinished tArmed])) as H.
    rewrite exec_snoc in H. exact H. }
  assert (store_get (jobs w') run.1 = Some run.2) as Hget' by (by rewrite Hw', Hjobs).
  split; [done|].
  rewrite Hw' in Hnd, Hget'. rewrite Hw'.
  destruct (sweep_get_None_iff now denied _ _ _ _ Hnd Hget' Hh) as [_ Hiff].
  change (step ?x (Sweep now denied)) with (sweep now denied x).
  rewrite Hiff. unfold expired. simpl.
  rewrite andb_true_iff, negb_true_iff, Z.eqb_neq, Z.leb_le. done.
Qed.

(** X18. A download never serves anything but the requested job's own
    output. After any sequence of events, when the download route hands
    out a file for an id, that file is [OUT_DIR/<id>.mp3], it is on
    disk, it goes out under the name [audio-<id>.mp3], and the job of
    that id is in the store with status [done]. *)
Theorem download_serves_only_the_jobs_output (tr : list Event) (k path filename : string) :
  let w := exec initial tr in
  downloadRoute w k = mkResponse 200 (Download path filename) →
  path = path_join OUT_DIR (k +:+ ".mp3")
  ∧ filename = "audio-" +:+ k +:+ ".mp3"
  ∧ path ∈ files (disk w)
  ∧ ∃ j, jobs_get w k = Some j ∧ status j = done ∧ outputPath j = path.
Proof.
  intros w. unfold downloadRoute, existsSync.
  destruct (jobs_get w k) as [j|] eqn:Hjob; [|done].
  assert (store_wf w) as Hwf by apply store_wf_exec, store_wf_initial.
  destruct (store_wf_get _ _ _ Hwf Hjob) as [Hid Hout].
  case_bool_decide as Hst; [done|]. case_bool_decide as Hfile; [|done]. simpl.
  intros [= <- <-]. split; [done|]. split; [by rewrite Hid|]. split; [done|].
  exists j. split; [done|]. split; [|done].
  destruct (decide (status j = done)); [done|]. by destruct Hst.
Qed.

End Server.

(** ** The properties on a concrete run

    One server with the default TTL, one upload, and the events that
    follow it. *)

Local Abbreviation out_dir := "/srv/app/tmp/outputs".
Local Abbreviation upload_1 := (Upload (Some "/srv/app/tmp/uploads/1-2-clip.mp4") "job-1" 1000).
Local Abbreviation upload_2 := (Upload (Some "/srv/app/tmp/uploads/3-4-talk.webm") "job-2" 1500).
Local Abbreviation run_1 := ("job-1", 0%nat).
Local Abbreviation started := [upload_1; NextTick None 1000].
Local Abbreviation finished :=
  [upload_1; NextTick None 1000; DiskWrite "/srv/app/tmp/uploads/1-2-clip.mp4";
   DiskWrite "/srv/app/tmp/outputs/job-1.mp3"; EncEnd run_1 5000 5001].
Local Abbreviation job_1 st prog fin exp tm err :=
  (mkJob "job-1" st prog "/srv/app/tmp/uploads/1-2-clip.mp4"
         "/srv/app/tmp/outputs/job-1.mp3" 1000 fin exp tm err).
Local Abbreviation boom := (mkJsError "spawn ffmpeg ENOENT" "Error: spawn ffmpeg ENOENT").

Lemma status_moves_forward_only_witness :
  ∃ j', heap (exec None out_dir initial (started ++ [EncEnd run_1 5000 5001])) !! 0%nat
        = Some j'
        ∧ forward processing (status j') = true
        ∧ (is_terminal processing = true → status j' = processing).
Proof.
  apply (status_moves_forward_only None out_dir started (EncEnd run_1 5000 5001) 0%nat
           (job_1 processing 0 None None None None)); vm_compute; reflexivity.
Defined.

Lemma eviction_idempotent_witness :
  let w := exec None out_dir initial finished in
  store_get
    (jobs (step None out_dir
             (step None out_dir w (Sweep 4000000 ["/srv/app/tmp/uploads/1-2-clip.mp4"]))
             (TimerFire 0 [])))
    "job-1" = None.
Proof.
  intros w.
  destruct (eviction_idempotent None out_dir) as (_ & _ & H).
  destruct (H w 0%nat (mkTimer 0 "job-1" 0)
              (job_1 done 100 (Some 5000) (Some 3605001) (Some 0%nat) None)
              4000000 [] ["/srv/app/tmp/uploads/1-2-clip.mp4"]
              eq_refl eq_refl eq_refl eq_refl
              (Sweep 4000000 ["/srv/app/tmp/uploads/1-2-clip.mp4"]) (TimerFire 0 [])
              (or_intror (conj eq_refl eq_refl))) as (_ & Hgone & _).
  exact Hgone.
Defined.

Lemma success_event_completes_and_arms_eviction_witness :
  ∃ j', heap (step None out_dir (exec None out_dir initial started) (EncEnd run_1 5000 5001))
          !! 0%nat = Some j'
        ∧ jobs_get (step None out_dir (exec None out_dir initial started)
                      (EncEnd run_1 5000 5001)) "job-1" = Some j'
        ∧ status j' = done
        ∧ progress j' = 100
        ∧ finishedAt j' = Some 5000
        ∧ expiresAt j' = Some (5001 + 3600000)
        ∧ cleanupTimer j' = Some 0%nat
        ∧ timers (step None out_dir (exec None out_dir initial started)
                    (EncEnd run_1 5000 5001))
          = [mkTimer 0 "job-1" 0].
Proof.
  apply (success_event_completes_and_arms_eviction None out_dir started run_1
           (job_1 processing 0 None None None None) 5000 5001).
  - vm_compute. reflexivity.
  - apply (bool_decide_unpack _). vm_compute. exact I.
  - vm_compute. reflexivity.
  - reflexivity.
Defined.

Lemma download_needs_done_and_file_witness :
  downloadRoute (exec None out_dir initial finished) "job-1"
  = mkResponse 200 (Download "/srv/app/tmp/outputs/job-1.mp3" "audio-job-1.mp3").
Proof.
  destruct (download_needs_done_and_file (exec None out_dir initial finished) "job-1") as [_ H].
  destruct (H (job_1 done 100 (Some 5000) (Some 3605001) (Some 0%nat) None)) as [_ [_ Hdl]].
  - vm_compute. reflexivity.
  - apply Hdl. split; [reflexivity|].
    apply (bool_decide_unpack _). vm_compute. exact I.
Defined.

Lemma status_payload_fields_witness :
  ∃ dl er,
    statusRoute (exec None out_dir initial (started ++ [EncError run_1 boom 5000 5001])) "job-1"
    = safeSendJSON 200 (StatusJson "job-1" error 0 dl er)
    ∧ (is_Some dl ↔ error = done)
    ∧ (is_Some er ↔ error = error).
Proof.
  destruct (status_payload_fields None out_dir
              (started ++ [EncError run_1 boom 5000 5001]) "job-1") as [_ H].
  - vm_compute. reflexivity.
  - apply (H (job_1 error 0 (Some 5000) (Some 3605001) (Some 0%nat)
                    (Some "spawn ffmpeg ENOENT"))).
    vm_compute. reflexivity.
Defined.

Lemma progress_event_stores_rounded_report_witness :
  ∃ job', heap (step None out_dir (exec None out_dir initial started)
                  (EncProgress run_1 (Num (424 # 10)))) !! 0%nat = Some job'
          ∧ progress job' = 42
          ∧ 0 <= progress job' <= 100.
Proof.
  destruct (progress_event_stores_rounded_report None out_dir
              (exec None out_dir initial started) run_1 (Num (424 # 10))
              (job_1 processing 0 None None None None))
    as (job' & Hjob & Hval & _ & _ & Hrange).
  - apply (bool_decide_unpack _). vm_compute. exact I.
  - vm_compute. reflexivity.
  - exists job'. split; [exact Hjob|]. split; [exact Hval|].
    apply (Hrange (424 # 10)%Q eq_refl); vm_compute; discriminate.
Defined.

(** C8 as stated fails: a report of 150 percent, which fluent-ffmpeg
    produces when it underestimates the duration of the input, is stored
    as 150. *)
Lemma progress_report_above_100_is_stored :
  ∃ job', heap (step None out_dir (exec None out_dir initial started)
                  (EncProgress run_1 (Num (150 # 1)))) !! 0%nat = Some job'
          ∧ progress job' = 150
          ∧ ¬ (0 <= progress job' <= 100).
Proof.
  exists (job_1 processing 150 None None None None).
  split; [vm_compute; reflexivity|]. split; [reflexivity|]. simpl. lia.
Qed.

Lemma eviction_removes_job_despite_delete_errors_witness :
  let w' := step None out_dir (exec None out_dir initial finished)
              (TimerFire 0 ["/srv/app/tmp/uploads/1-2-clip.mp4"]) in
  store_get (jobs w') "job-1" = None
  ∧ statusRoute w' "job-1" = safeSendJSON 404 (ErrorJson "Job not found")
  ∧ downloadRoute w' "job-1" = safeSendJSON 404 (ErrorJson "Job not found").
Proof.
  destruct (eviction_removes_job_despite_delete_errors None out_dir) as (H & _ & _).
  apply (H (exec None out_dir initial finished) 0%nat (mkTimer 0 "job-1" 0)
           ["/srv/app/tmp/uploads/1-2-clip.mp4"]).
  vm_compute. reflexivity.
Defined.

Lemma distinct_jobs_have_distinct_output_paths_witness :
  "/srv/app/tmp/outputs/job-1.mp3" ≠ "/srv/app/tmp/outputs/job-2.mp3".
Proof.
  destruct (distinct_jobs_have_distinct_output_paths None out_dir [upload_1; upload_2]
              "job-1" "job-2"
              (job_1 queued 0 None None None None)
              (mkJob "job-2" queued 0 "/srv/app/tmp/uploads/3-4-talk.webm"
                     "/srv/app/tmp/outputs/job-2.mp3" 1500 None None None None))
    as (_ & _ & _ & _ & Hne & _).
  - vm_compute. reflexivity.
  - vm_compute. reflexivity.
  - discriminate.
  - exact Hne.
Defined.

(** C4. The [catch] block of [convertToMp3] does what the ['error']
    handler does except for one statement: it does not assign
    [job.finishedAt]. After an exception thrown while starting ffmpeg
    the job is [error], carries the message and has its eviction armed,
    and [finishedAt] is still unset; after an ['error'] event with the
    same error it is set. *)
Theorem thrown_exception_leaves_finishedAt_unset :
  jobs_get (exec None out_dir initial [upload_1; NextTick (Some boom) 5000]) "job-1"
  = Some (job_1 error 0 None (Some 3605000) (Some 0%nat) (Some "spawn ffmpeg ENOENT"))
  ∧ jobs_get (exec None out_dir initial [upload_1; NextTick None 1000;
                                         EncError run_1 boom 5000 5000]) "job-1"
    = Some (job_1 error 0 (Some 5000) (Some 3605000) (Some 0%nat)
                  (Some "spawn ffmpeg ENOENT")).
Proof. split; vm_compute; reflexivity. Qed.

(** The handlers themselves do not look at the current status: the
    lifecycle order rests on the command emitting a single final event.
    A sequence that [env_ok] rejects, ['error'] after ['end'], takes the
    job from [done] to [error]. *)
Remark final_event_handlers_are_unguarded :
  env_ok (started ++ [EncEnd run_1 5000 5001; EncError run_1 boom 6000 6001]) = false
  ∧ status <$> heap (exec None out_dir initial (started ++ [EncEnd run_1 5000 5001])) !! 0%nat
    = Some done
  ∧ status <$> heap (exec None out_dir initial
                       (started ++ [EncEnd run_1 5000 5001; EncError run_1 boom 6000 6001]))
                !! 0%nat
    = Some error.
Proof. repeat split; vm_compute; reflexivity. Qed.

(** ** The further properties on the same run *)

Local Abbreviation in_1 := "/srv/app/tmp/uploads/1-2-clip.mp4".
Local Abbreviation out_1 := "/srv/app/tmp/outputs/job-1.mp3".
Local Abbreviation done_1 := (job_1 done 100 (Some 5000) (Some 3605001) (Some 0%nat) None).
Local Abbreviation timer_1 := (mkTimer 0 "job-1" 0).

Lemma unknown_id_is_not_found_witness :
  statusRoute (exec None out_dir initial finished) "job-9"
  = safeSendJSON 404 (ErrorJson "Job not found")
  ∧ downloadRoute (exec None out_dir initial finished) "job-9"
    = safeSendJSON 404 (ErrorJson "Job not found").
Proof.
  apply (unknown_id_is_not_found None out_dir finished "job-9").
  apply (bool_decide_unpack _). vm_compute. exact I.
Defined.

Lemma job_identity_is_never_reassigned_witness :
  ∃ j', heap (exec None out_dir (exec None out_dir initial started)
                [EncProgress run_1 (Num (50 # 1)); EncEnd run_1 5000 5001;
                 TimerFire 0 []]) !! 0%nat = Some j'
        ∧ id j' = "job-1" ∧ inputPath j' = in_1 ∧ outputPath j' = out_1.
Proof.
  apply (job_identity_is_never_reassigned None out_dir
           (exec None out_dir initial started)
           [EncProgress run_1 (Num (50 # 1)); EncEnd run_1 5000 5001; TimerFire 0 []]
           0%nat (job_1 processing 0 None None None None)).
  vm_compute. reflexivity.
Defined.

Lemma sweep_evicts_exactly_the_expired_witness :
  (store_get (jobs (step None out_dir (exec None out_dir initial finished) (Sweep 6000 [])))
     "job-1" = None ↔ expired 6000 done_1 = true)
  ∧ (expired 6000 done_1 = false →
     jobs_get (step None out_dir (exec None out_dir initial finished) (Sweep 6000 []))
       "job-1" = Some done_1)
  ∧ heap (step None out_dir (exec None out_dir initial finished) (Sweep 6000 []))
    = heap (exec None out_dir initial finished)
  ∧ timers (step None out_dir (exec None out_dir initial finished) (Sweep 6000 []))
    = timers (exec None out_dir initial finished).
Proof.
  apply (sweep_evicts_exactly_the_expired None out_dir finished 6000 [] "job-1" 0%nat done_1);
    vm_compute; reflexivity.
Defined.

Lemma sweep_is_idempotent_witness :
  step None out_dir
    (step None out_dir (exec None out_dir initial finished) (Sweep 4000000 [in_1]))
    (Sweep 3999000 [])
  = step None out_dir (exec None out_dir initial finished) (Sweep 4000000 [in_1]).
Proof.
  apply (sweep_is_idempotent None out_dir (exec None out_dir initial finished)
           4000000 3999000 [in_1] []).
  vm_compute. discriminate.
Defined.

Lemma eviction_deletes_only_the_jobs_files_witness :
  "/srv/app/tmp/other.bin"
  ∈ files (disk (step None out_dir
                   (exec None out_dir initial (finished ++ [DiskWrite "/srv/app/tmp/other.bin"]))
                   (TimerFire 0 []))).
Proof.
  destruct (eviction_deletes_only_the_jobs_files None out_dir) as (H & _ & _).
  apply (H (exec None out_dir initial (finished ++ [DiskWrite "/srv/app/tmp/other.bin"]))
           0%nat timer_1 [] done_1 "/srv/app/tmp/other.bin").
  - vm_compute. reflexivity.
  - vm_compute. reflexivity.
  - apply (bool_decide_unpack _). vm_compute. exact I.
  - discriminate.
  - discriminate.
Defined.

Lemma eviction_removes_both_files_witness :
  (in_1 ∉ files (disk (step None out_dir (exec None out_dir initial finished)
                         (TimerFire 0 []))))
  ∧ (out_1 ∉ files (disk (step None out_dir (exec None out_dir initial finished)
                            (TimerFire 0 [])))).
Proof.
  destruct (eviction_removes_both_files None out_dir) as (H & _).
  destruct (H (exec None out_dir initial finished) 0%nat timer_1 [] done_1) as [Hi Ho].
  - vm_compute. reflexivity.
  - vm_compute. reflexivity.
  - apply not_elem_of_nil.
  - apply not_elem_of_nil.
  - split; [apply Hi|apply Ho]; discriminate.
Defined.

Lemma refused_input_deletion_orphans_the_output_witness :
  let w := exec None out_dir initial finished in
  disk (step None out_dir w (TimerFire 0 [in_1])) = disk w
  ∧ console (step None out_dir w (TimerFire 0 [in_1]))
    = console w ++ ["cleanup error EPERM"]
  ∧ store_get (jobs (step None out_dir w (TimerFire 0 [in_1]))) "job-1" = None.
Proof.
  intros w.
  apply (refused_input_deletion_orphans_the_output None out_dir w 0%nat timer_1 [in_1] done_1).
  - vm_compute. reflexivity.
  - vm_compute. reflexivity.
  - discriminate.
  - apply (bool_decide_unpack _). vm_compute. exact I.
  - apply (bool_decide_unpack _). vm_compute. exact I.
Defined.

Lemma unfinished_jobs_are_never_evicted_witness :
  jobs_get (exec None out_dir initial (started ++ [Sweep 9000000 []; upload_2])) "job-1"
  = Some (job_1 processing 0 None None None None)
  ∧ expiresAt (job_1 processing 0 None None None None) = None
  ∧ ∀ t, t ∈ timers (exec None out_dir initial (started ++ [Sweep 9000000 []; upload_2])) →
         timerJobId t ≠ "job-1".
Proof.
  apply (unfinished_jobs_are_never_evicted None out_dir
           (started ++ [Sweep 9000000 []; upload_2]) 0%nat
           (job_1 processing 0 None None None None)); vm_compute; reflexivity.
Defined.

Lemma status_payload_of_queued_and_done_jobs_witness :
  statusRoute (exec None out_dir initial finished) "job-1"
  = safeSendJSON 200 (StatusJson "job-1" done 100 (Some "/api/download/job-1") None).
Proof.
  destruct (status_payload_of_queued_and_done_jobs None out_dir finished "job-1" done_1)
    as [_ H].
  - vm_compute. reflexivity.
  - vm_compute. reflexivity.
  - by destruct (H eq_refl) as (? & _).
Defined.

Lemma finished_job_keeps_its_timer_witness :
  is_Some (expiresAt done_1)
  ∧ ∃ i t, list_find (λ t', handle t' = handle t)
             (timers (exec None out_dir initial finished)) = Some (i, t)
           ∧ timerJobId t = "job-1"
           ∧ cleanupTimer done_1 = Some (handle t)
           ∧ ∀ denied,
               store_get (jobs (step None out_dir (exec None out_dir initial finished)
                                  (TimerFire (handle t) denied))) "job-1" = None.
Proof.
  apply (finished_job_keeps_its_timer None out_dir finished "job-1" done_1);
    vm_compute; reflexivity.
Defined.

Lemma no_job_is_converted_twice_witness : 0%nat = 0%nat.
Proof.
  apply (no_job_is_converted_twice None out_dir finished 0%nat 0%nat run_1 run_1).
  - vm_compute. reflexivity.
  - vm_compute. reflexivity.
  - vm_compute. reflexivity.
  - by left.
Defined.

Lemma one_cleanup_timer_per_job_witness : 0%nat = 0%nat.
Proof.
  apply (one_cleanup_timer_per_job None out_dir finished 0%nat 0%nat timer_1 timer_1);
    vm_compute; reflexivity.
Defined.

Lemma tick_starts_the_oldest_queued_job_witness :
  ∃ r j, store_get (jobs (exec None out_dir initial [upload_1; upload_2])) "job-1" = Some r
         ∧ heap (exec None out_dir initial [upload_1; upload_2]) !! r = Some j
         ∧ status j = queued
         ∧ let w' := step None out_dir (exec None out_dir initial [upload_1; upload_2])
                       (NextTick None 2000) in
           nextTicks w' = ["job-2"]
           ∧ ∃ j', jobs_get w' "job-1" = Some j'
                   ∧ status j' = processing
                   ∧ (@None JsError = None →
                      encoders w'
                      = encoders (exec None out_dir initial [upload_1; upload_2])
                        ++ [("job-1", r)]).
Proof.
  apply (tick_starts_the_oldest_queued_job None out_dir [upload_1; upload_2] None 2000
           "job-1" ["job-2"]); vm_compute; reflexivity.
Defined.

Lemma poll_stops_exactly_on_finished_jobs_witness :
  pollCallback (body (statusRoute (exec None out_dir initial finished) "job-7")) firstView
  = mkPollView "0%" (TextContent "undefined - Job not found") true.
Proof.
  destruct (poll_stops_exactly_on_finished_jobs (exec None out_dir initial finished)
              "job-7" firstView eq_refl) as [_ H].
  apply H. vm_compute. reflexivity.
Defined.

Lemma page_shows_queued_and_done_jobs_witness :
  pollCallback (body (statusRoute (exec None out_dir initial finished) "job-1")) firstView
  = mkPollView "100%"
      (InnerHTML ("Completed — <a href=" +:+ dquote +:+ "/api/download/" +:+ "job-1"
                  +:+ dquote +:+ ">Download MP3</a>"))
      false.
Proof.
  destruct (page_shows_queued_and_done_jobs None out_dir finished "job-1" done_1 firstView)
    as [_ H].
  - vm_compute. reflexivity.
  - vm_compute. reflexivity.
  - by apply H.
Defined.

Lemma upload_filename_is_injective_witness :
  1700000000000%N = 1700000000000%N ∧ 123456789%N = 123456789%N ∧ "clip.mp4" = "clip.mp4".
Proof.
  apply (upload_filename_is_injective 1700000000000 123456789 1700000000000 123456789
           "clip.mp4" "clip.mp4").
  reflexivity.
Defined.

Lemma finished_job_is_swept_after_its_ttl_witness :
  store_get (jobs (step None out_dir (exec None out_dir initial started)
                     (EncEnd run_1 5000 5001))) "job-1" = Some 0%nat
  ∧ (store_get (jobs (step None out_dir
                        (step None out_dir (exec None out_dir initial started)
                           (EncEnd run_1 5000 5001))
                        (Sweep 3605000 []))) "job-1" = None
     ↔ 5001 + 3600000 ≠ 0 ∧ 5001 + 3600000 <= 3605000).
Proof.
  apply (finished_job_is_swept_after_its_ttl None out_dir started run_1 5000 5001 3605000 []).
  - vm_compute. reflexivity.
  - apply (bool_decide_unpack _). vm_compute. exact I.
Defined.

Lemma download_serves_only_the_jobs_output_witness :
  out_1 = path_join out_dir ("job-1" +:+ ".mp3")
  ∧ "audio-job-1.mp3" = "audio-" +:+ "job-1" +:+ ".mp3"
  ∧ out_1 ∈ files (disk (exec None out_dir initial finished))
  ∧ ∃ j, jobs_get (exec None out_dir initial finished) "job-1" = Some j
         ∧ status j = done ∧ outputPath j = out_1.
Proof.
  apply (download_serves_only_the_jobs_output None out_dir finished "job-1" out_1
           "audio-job-1.mp3").
  vm_compute. reflexivity.
Defined.
